(** * consul-go: session lifecycle and endpoint balancing

    A shallow embedding of [session.go] (the session-bound context, its
    teardown under [sync.Once] and its renewal loop) and of the balancing
    strategies exercised by [balancer_test.go].

    Conventions.
    - [time.Duration] is an [int64] count of nanoseconds: a [Z] whose
      arithmetic wraps around explicitly ([wrap64]).
    - [time.Time] is an instant on an unbounded nanosecond axis: [Add] is
      addition and [Before] is strict order.
    - The agent (the HTTP transport behind [Client.Put]) is an oracle: a
      function from what happened so far and the current request to a
      response.  Every request is appended to a history, so that "which
      calls were issued, with which context" is a property of that list.
    - [sync.Once] serialises its closure (a second caller blocks until the
      first call returned), so one call of [cancelWithError] is one atomic
      transition of the shared [sessionCtx] cell.  [race_run] spells the
      same calls out step by step, and [race_linearises] relates the two.
    - A [select] takes any case whose channel is ready: the renewal loop
      is driven by the case taken, and a case that is not ready cannot
      be taken.
    - A goroutine panic (closing a closed channel, storing a nil error,
      a nil client, a ticker with a non-positive period) is the [None]
      of the [M] monad. *)

From stdpp Require Import base option list strings gmap.
From Stdlib Require Import ZArith Lia Permutation Floats Ascii.

Set Warnings "-register-all".

Local Open Scope Z_scope.

(** ** Durations and instants *)

Module Time.

Abbreviation Duration := Z (only parsing).
Abbreviation Time := Z (only parsing).

Definition MinInt64 : Z := - 2 ^ 63.
Definition MaxInt64 : Z := 2 ^ 63 - 1.

Definition int64 (d : Z) : Prop := MinInt64 <= d <= MaxInt64.

(** Two's complement wrap-around of a 64-bit signed result. *)
Definition wrap64 (z : Z) : Z := (z + 2 ^ 63) mod 2 ^ 64 - 2 ^ 63.

Definition Nanosecond : Duration := 1.
Definition Millisecond : Duration := 1000000.
Definition Second : Duration := 1000000000.

(** [a * b] on [time.Duration]. *)
Definition mul (a b : Duration) : Duration := wrap64 (a * b).

(** [a / b] on [time.Duration]: Go truncates toward zero.  A quotient
    by 3 stays in range, so no wrap-around is written here. *)
Definition div (a b : Duration) : Duration := Z.quot a b.

Definition Add (t : Time) (d : Duration) : Time := t + d.
Definition Before (t u : Time) : bool := t <? u.

End Time.

(** ** Errors *)

Inductive error : Type :=
  | Canceled                    (* context.Canceled *)
  | DeadlineExceeded            (* context.DeadlineExceeded *)
  | errorString (msg : string). (* any transport or agent failure *)

Global Instance error_eq_dec : EqDecision error.
Proof. solve_decision. Defined.

(** ** Session configuration *)

Abbreviation SessionID := string (only parsing).
Abbreviation SessionBehavior := string (only parsing).

Definition Release : SessionBehavior := "release".
Definition Delete : SessionBehavior := "delete".

(** The fields of [Client] that [session.go] can observe. *)
Record Client : Type := mkClient {
  Address : string;
  UserAgent : string;
  Datacenter : string;
}.

Definition DefaultClient : Client := mkClient "" "" "".

Record Session : Type := mkSession {
  client : option Client;   (* [*Client], [None] is nil *)
  Name : string;
  ID : SessionID;
  Behavior : SessionBehavior;
  LockDelay : Z;
  TTL : Z;
}.

Definition set_client (c : Client) (s : Session) : Session :=
  mkSession (Some c) (Name s) (ID s) (Behavior s) (LockDelay s) (TTL s).
Definition set_ID (i : SessionID) (s : Session) : Session :=
  mkSession (client s) (Name s) i (Behavior s) (LockDelay s) (TTL s).
Definition set_Behavior (b : SessionBehavior) (s : Session) : Session :=
  mkSession (client s) (Name s) (ID s) b (LockDelay s) (TTL s).
Definition set_LockDelay (d : Z) (s : Session) : Session :=
  mkSession (client s) (Name s) (ID s) (Behavior s) d (TTL s).
Definition set_TTL (d : Z) (s : Session) : Session :=
  mkSession (client s) (Name s) (ID s) (Behavior s) (LockDelay s) d.

(** ** Contexts *)

(** Values of type [interface{}] used as context keys.  [SessionKey] is
    the address of one package-level [contextKey]; keys compare by
    identity. *)
Inductive any : Type :=
  | Ptr (addr : positive)
  | Str (s : string)
  | Int (z : Z).

Global Instance any_eq_dec : EqDecision any.
Proof. solve_decision. Defined.

Definition SessionKey : any := Ptr 1.

Inductive value : Type :=
  | VNil
  | VAny (a : any)
  | VSession (s : Session).

(** The observable state of a [context.Context]: what its four methods
    return at one moment. *)
Record Context : Type := mkContext {
  ctx_Deadline : option Z;
  ctx_Done : bool;              (* the Done channel is closed *)
  ctx_Err : option error;
  ctx_Value : any -> value;
}.

(** The context an agent operation runs under is always
    [context.WithTimeout(parent, d)]; [ctxRef] names the parent. *)
Inductive ctxRef : Type :=
  | Background      (* context.Background() *)
  | CallerCtx       (* the [ctx] handed to WithSession *)
  | SessionCtx.     (* the session context [s] itself *)

Record opCtx : Type := WithTimeout {
  op_parent : ctxRef;
  op_timeout : Z;
}.

(** ** The agent *)

Record sessionConfig : Type := mkConfig {
  cfg_Name : string;
  cfg_Behavior : string;
  cfg_LockDelay : Z;     (* [duration], the same int64 *)
  cfg_TTL : string;      (* the text produced by [seconds] *)
}.

Record request : Type := mkRequest {
  req_client : Client;
  req_ctx : opCtx;
  req_method : string;
  req_path : string;
  req_send : option sessionConfig;
}.

Record response : Type := mkResponse {
  resp_err : option error;
  resp_ID : string;       (* the decoded [struct{ ID string }] *)
}.

(** What has happened so far, oldest first: the stores into the error
    cell, the closing of the done channel and the requests sent. *)
Inductive event : Type :=
  | Stored (e : error)
  | Closed
  | Sent (r : request).

Definition agent : Type := list event -> request -> response.

(** ** The session context cell *)

Record sessionCtx : Type := mkSessionCtx {
  session : Session;
  ctx : Context;            (* the parent, as currently observable *)
  err : option error;       (* atomic.Value, [None] before any Store *)
  once : bool;              (* sync.Once has fired *)
  done : bool;              (* [done] has been closed *)
}.

Record world (S : Type) : Type := mkWorld {
  cell : S;
  history : list event;
}.
Arguments mkWorld {S} _ _.
Arguments cell {S} _.
Arguments history {S} _.

(** ** A state monad with panics

    [S] is the mutable object in scope: [unit] while [WithSession] has
    not built the context yet, [sessionCtx] in its methods. *)

Definition M (S A : Type) : Type := world S -> option (A * world S).

Global Instance M_ret {S} : MRet (M S) := fun A a w => Some (a, w).
Global Instance M_bind {S} : MBind (M S) := fun A B k m w =>
  match m w with
  | Some (a, w') => k a w'
  | None => None
  end.

Definition panic {S A} : M S A := fun _ => None.
Definition self {S} : M S S := fun w => Some (cell w, w).
Definition update {S} (f : S -> S) : M S unit :=
  fun w => Some (tt, mkWorld (f (cell w)) (history w)).
Definition emit {S} (e : event) : M S unit :=
  fun w => Some (tt, mkWorld (cell w) (history w ++ [e])).

(** ** The renewal goroutine, as data *)

(** The case of the [select] in [run] that was taken. *)
Inductive selected : Type :=
  | SelDone                (* case <-s.done *)
  | SelCtxDone             (* case <-s.ctx.Done() *)
  | SelTick (now : Z).     (* case now := <-ticker.C *)

Inductive routine : Type :=
  | Spawned (deadline : Z)            (* [go s.run(deadline)], not yet run *)
  | Looping (timeout deadline : Z)    (* at the head of the [for] *)
  | Returned.

(** What [WithSession] hands back: the context and, when one was
    spawned, the goroutine. *)
Inductive derived : Type :=
  | ErrorCtx (c : Context)
  | SessionCtxOf (s : sessionCtx) (t : routine).

Definition spawned (d : derived) : option routine :=
  match d with
  | ErrorCtx _ => None
  | SessionCtxOf _ t => Some t
  end.

Record system : Type := mkSystem {
  sys_world : world sessionCtx;
  sys_routine : routine;
}.

(** What can happen to a live system: the caller invokes the returned
    [CancelFunc], the parent context ends, the goroutine is scheduled for
    the first time, the goroutine takes one case of its [select]. *)
Inductive action : Type :=
  | Cancel
  | ParentEnd (e : error)
  | Start
  | Select (c : selected).

(** ** [sync.Once], one step at a time

    [once.Do(f)] takes the mutex of the [Once], runs [f] if it has not
    run yet, marks the [Once] done and releases the mutex; a caller that
    finds it done returns at once.  The body of [cancelWithError] has
    four steps.  The [Held] state names the caller that runs the body
    and the step it is at: only the holder of the mutex can be there. *)
Inductive stage : Type := AtStore | AtClose | AtDestroy | AtUnlock.

Inductive latch : Type :=
  | Open
  | Held (i : nat) (e : option error) (st : stage)
  | Shut.

Inductive caller : Type :=
  | Calling (e : option error)   (* in [cancelWithError(e)], not returned *)
  | Back.

Record race : Type := mkRace {
  r_world : world sessionCtx;
  r_latch : latch;
  r_callers : list caller;
}.

(** ** Client operations

    [Client.Do] belongs to the transport: what matters here is which
    request goes out and what comes back. *)

Section Agent.

Variable consul : agent.

(** [Client.Put] on a pointer receiver: a nil receiver panics on its
    first field read. *)
Definition Put {S} (c : option Client) (k : opCtx) (path : string)
    (send : option sessionConfig) : M S response :=
  match c with
  | None => panic
  | Some c =>
      fun w =>
        let r := mkRequest c k "PUT" path send in
        Some (consul (history w) r, mkWorld (cell w) (history w ++ [Sent r]))
  end.

Definition createSession {S} (c : option Client) (k : opCtx)
    (config : sessionConfig) : M S (string * option error) :=
  r ← Put c k "/v1/session/create" (Some config);
  mret (resp_ID r, resp_err r).

Definition destroySession {S} (c : option Client) (k : opCtx)
    (sid : string) : M S (option error) :=
  r ← Put c k ("/v1/session/destroy/" +:+ sid) None;
  mret (resp_err r).

Definition renewSession {S} (c : option Client) (k : opCtx)
    (sid : string) : M S (option error) :=
  r ← Put c k ("/v1/session/renew/" +:+ sid) None;
  mret (resp_err r).

(** ** Methods of [*sessionCtx] *)

Definition Deadline (s : sessionCtx) : option Z := ctx_Deadline (ctx s).

Definition Done (s : sessionCtx) : bool := done s.

Definition Err (s : sessionCtx) : option error := err s.

Definition Value (s : sessionCtx) (key : any) : value :=
  if decide (key = SessionKey) then VSession (session s)
  else ctx_Value (ctx s) key.

Definition id (s : sessionCtx) : string := ID (session s).

Definition fire (s : sessionCtx) : sessionCtx :=
  mkSessionCtx (session s) (ctx s) (err s) true (done s).

(** [s.err.Store(err)]: atomic.Value panics on a nil interface. *)
Definition Store (e : option error) : M sessionCtx unit :=
  match e with
  | None => panic
  | Some e =>
      update (fun s =>
        mkSessionCtx (session s) (ctx s) (Some e) (once s) (done s));;
      emit (Stored e)
  end.

(** [close(s.done)]: closing a closed channel panics. *)
Definition close : M sessionCtx unit :=
  s ← self;
  if done s then panic
  else
    update (fun s =>
      mkSessionCtx (session s) (ctx s) (err s) (once s) true);;
    emit Closed.

(** [s.once.Do(func() { ... })]: the body runs on the first call only.
    The [Once] is marked first here; within one atomic call the moment
    is not observable, and [body_step] below marks it last, as
    [sync.Once] does. *)
Definition cancelWithError (e : option error) : M sessionCtx unit :=
  s ← self;
  if once s then mret tt
  else
    update fire;;
    Store e;;
    close;;
    s ← self;
    let k := WithTimeout Background (LockDelay (session s)) in
    destroySession (client (session s)) k (id s);;
    mret tt.

Definition cancel : M sessionCtx unit := cancelWithError (Some Canceled).

(** The same body, one step at a time; [None] when the body is over. *)
Definition body_step (e : option error) (st : stage)
    : M sessionCtx (option stage) :=
  match st with
  | AtStore => Store e;; mret (Some AtClose)
  | AtClose => close;; mret (Some AtDestroy)
  | AtDestroy =>
      s ← self;
      let k := WithTimeout Background (LockDelay (session s)) in
      destroySession (client (session s)) k (id s);;
      mret (Some AtUnlock)
  | AtUnlock => update fire;; mret None
  end.

(** Caller [i] takes its next step.  [None]: it waits for the mutex, it
    has returned, or the program panicked. *)
Definition move (i : nat) (r : race) : option race :=
  match r_callers r !! i with
  | Some (Calling e) =>
      match r_latch r with
      | Open => Some (mkRace (r_world r) (Held i e AtStore) (r_callers r))
      | Held j e' st =>
          if (i =? j)%nat then
            match body_step e' st (r_world r) with
            | Some (Some st', w') =>
                Some (mkRace w' (Held j e' st') (r_callers r))
            | Some (None, w') =>
                Some (mkRace w' Shut (<[i := Back]> (r_callers r)))
            | None => None
            end
          else None
      | Shut => Some (mkRace (r_world r) Shut (<[i := Back]> (r_callers r)))
      end
  | _ => None
  end.

Fixpoint race_run (schedule : list nat) (r : race) : option race :=
  match schedule with
  | [] => Some r
  | i :: schedule =>
      match move i r with
      | Some r' => race_run schedule r'
      | None => None
      end
  end.

(** ** [run] *)

(** [time.NewTicker(d)] panics unless [d] is positive. *)
Definition NewTicker {S} (d : Z) : M S Z :=
  if d <=? 0 then panic else mret d.

(** The prologue of [run]: the period and its ticker. *)
Definition run_enter (deadline : Z) : M sessionCtx routine :=
  s ← self;
  let timeout := Time.div (TTL (session s)) 3 in
  _ ← NewTicker timeout;
  mret (Looping timeout deadline).

(** A case of the [select] can be taken when its channel is ready. *)
Definition ready (s : sessionCtx) (c : selected) : bool :=
  match c with
  | SelDone => done s
  | SelCtxDone => ctx_Done (ctx s)
  | SelTick _ => true
  end.

(** One turn of the [for], given the case that fired. *)
Definition run_turn (timeout deadline : Z) (c : selected)
    : M sessionCtx routine :=
  match c with
  | SelDone => mret Returned
  | SelCtxDone =>
      s ← self;
      cancelWithError (ctx_Err (ctx s));;
      mret Returned
  | SelTick now =>
      s ← self;
      let renewSessionCtx := WithTimeout SessionCtx timeout in
      e ← renewSession (client (session s)) renewSessionCtx (id s);
      match e with
      | Some _ =>
          if Time.Before now deadline then mret (Looping timeout deadline)
          else cancelWithError e;; mret Returned
      | None =>
          s ← self;
          mret (Looping timeout (Time.Add now (TTL (session s))))
      end
  end.

(** ** [WithSession] *)

(** [seconds] formats the TTL for the agent; it is declared in a file
    that is not at hand, so it stays a parameter. *)
Variable seconds : Z -> string.

Definition resolve (session : Session) : Session :=
  let session :=
    match client session with
    | None => set_client DefaultClient session
    | Some _ => session
    end in
  let session :=
    if (String.length (Behavior session) =? 0)%nat
    then set_Behavior Release session else session in
  let session :=
    if LockDelay session =? 0
    then set_LockDelay (Time.mul 15 Time.Second) session else session in
  let session :=
    if TTL session =? 0
    then set_TTL (Time.mul 2 (LockDelay session)) session else session in
  session.

Definition config_of (session : Session) : sessionConfig :=
  mkConfig (Name session) (Behavior session) (LockDelay session)
           (seconds (TTL session)).

(** Modelled from the spec: [errorContext] is called by [WithSession]
    but declared in a file that is not at hand.  The spec has it return
    "an already-cancelled derived context carrying that error": a
    context derived from the parent whose Done channel is closed and
    whose [Err] is the given error. *)
Definition errorContext (ctx : Context) (e : error) : Context :=
  mkContext (ctx_Deadline ctx) true (Some e) (ctx_Value ctx).

Definition newSessionCtx (now : Z) (ctx : Context) (session : Session)
    : derived :=
  let s := mkSessionCtx session ctx None false false in
  SessionCtxOf s (Spawned (Time.Add now (TTL session))).

(** [now] is the reading of [time.Now()] in [newSessionCtx]. *)
Definition WithSession (now : Z) (ctx : Context) (session : Session)
    : M unit derived :=
  let session := resolve session in
  let createSessionCtx := WithTimeout CallerCtx (LockDelay session) in
  r ← createSession (client session) createSessionCtx (config_of session);
  match r.2 with
  | Some e => mret (ErrorCtx (errorContext ctx e))
  | None =>
      let session := set_ID r.1 session in
      mret (newSessionCtx now ctx session)
  end.

(** ** The running system *)

Definition end_parent (e : error) (s : sessionCtx) : sessionCtx :=
  let c := ctx s in
  mkSessionCtx (session s)
    (mkContext (ctx_Deadline c) true (Some e) (ctx_Value c))
    (err s) (once s) (done s).

Definition resume (r : option (routine * world sessionCtx))
    : option system :=
  match r with
  | Some (t', w') => Some (mkSystem w' t')
  | None => None
  end.

(** [None]: the action is not enabled, or the program panicked. *)
Definition step (a : action) (sys : system) : option system :=
  let w := sys_world sys in
  match a with
  | Cancel =>
      match cancel w with
      | Some (_, w') => Some (mkSystem w' (sys_routine sys))
      | None => None
      end
  | ParentEnd e =>
      if ctx_Done (ctx (cell w)) then None
      else Some (mkSystem (mkWorld (end_parent e (cell w)) (history w))
                          (sys_routine sys))
  | Start =>
      match sys_routine sys with
      | Spawned deadline => resume (run_enter deadline w)
      | _ => None
      end
  | Select c =>
      match sys_routine sys with
      | Looping timeout deadline =>
          if ready (cell w) c
          then resume (run_turn timeout deadline c w)
          else None
      | _ => None
      end
  end.

Fixpoint exec (acts : list action) (sys : system) : option system :=
  match acts with
  | [] => Some sys
  | a :: acts =>
      match step a sys with
      | Some sys' => exec acts sys'
      | None => None
      end
  end.

(** The system [WithSession] leaves behind when creation succeeds. *)
Definition boot (now : Z) (ctx : Context) (session : Session)
    (h : list event) : option system :=
  match WithSession now ctx session (mkWorld tt h) with
  | Some (SessionCtxOf s t, w) => Some (mkSystem (mkWorld s (history w)) t)
  | _ => None
  end.

End Agent.

(** ** Observations on a history *)

(** [strings.HasPrefix], by recursion on the prefix. *)
Fixpoint has_prefix (p s : string) : bool :=
  match p with
  | EmptyString => true
  | String a p' =>
      match s with
      | EmptyString => false
      | String b s' => if Ascii.eqb a b then has_prefix p' s' else false
      end
  end.

Definition destroy_request (c : Client) (s : sessionCtx) : request :=
  mkRequest c (WithTimeout Background (LockDelay (session s))) "PUT"
            ("/v1/session/destroy/" +:+ id s) None.

Definition renew_request (c : Client) (timeout : Z) (s : sessionCtx)
    : request :=
  mkRequest c (WithTimeout SessionCtx timeout) "PUT"
            ("/v1/session/renew/" +:+ id s) None.

Definition is_renewal (ev : event) : bool :=
  match ev with
  | Sent r => has_prefix "/v1/session/renew/" (req_path r)
  | _ => false
  end.

(** The events only teardown produces. *)
Definition is_teardown (ev : event) : bool :=
  match ev with
  | Stored _ | Closed => true
  | Sent r => has_prefix "/v1/session/destroy/" (req_path r)
  end.

Definition teardowns (h : list event) : list event := List.filter is_teardown h.

Definition destroys (h : list event) : nat :=
  length (List.filter
            (fun ev => match ev with
                       | Sent _ => is_teardown ev
                       | _ => false
                       end) h).

(** The cell after teardown with cause [e]. *)
Definition torn (e : error) (s : sessionCtx) : sessionCtx :=
  mkSessionCtx (session s) (ctx s) (Some e) true true.

(** [Done] of [context.WithTimeout(parent, d)]: closed once its timer
    fired or its parent is done. *)
Definition parent_done (s : sessionCtx) (p : ctxRef) : bool :=
  match p with
  | Background => false
  | CallerCtx => ctx_Done (ctx s)
  | SessionCtx => Done s
  end.

Definition op_done (s : sessionCtx) (fired : bool) (k : opCtx) : bool :=
  fired || parent_done s (op_parent k).

(** What no transition changes after the [Once] has fired. *)
Definition frozen (w w' : world sessionCtx) : Prop :=
  once (cell w') = true /\
  err (cell w') = err (cell w) /\
  done (cell w') = done (cell w) /\
  session (cell w') = session (cell w) /\
  teardowns (history w') = teardowns (history w) /\
  destroys (history w') = destroys (history w).

(** The world while caller [e0] is in the body, about to run [st]. *)
Definition midway (c : Client) (e0 : error) (st : stage)
    (w0 : world sessionCtx) : world sessionCtx :=
  let s := cell w0 in
  let h := history w0 in
  let stored := mkSessionCtx (session s) (ctx s) (Some e0) (once s) (done s) in
  let closed := mkSessionCtx (session s) (ctx s) (Some e0) (once s) true in
  match st with
  | AtStore => w0
  | AtClose => mkWorld stored (h ++ [Stored e0])
  | AtDestroy => mkWorld closed (h ++ [Stored e0; Closed])
  | AtUnlock =>
      mkWorld closed (h ++ [Stored e0; Closed; Sent (destroy_request c s)])
  end.

(** The invariant of a race that started from [w0] with [callers0]. *)
Definition race_inv (c : Client) (w0 : world sessionCtx)
    (callers0 : list caller) (r : race) : Prop :=
  (forall i e, r_callers r !! i = Some (Calling e) ->
               callers0 !! i = Some (Calling e)) /\
  (forall i, r_callers r !! i = Some Back ->
             callers0 !! i = Some Back \/ r_latch r = Shut) /\
  match r_latch r with
  | Open => r_world r = w0
  | Held i e st =>
      callers0 !! i = Some (Calling e) /\
      r_callers r !! i = Some (Calling e) /\
      ((st = AtStore /\ r_world r = w0) \/
       exists e0, e = Some e0 /\ r_world r = midway c e0 st w0)
  | Shut =>
      exists i e0,
        callers0 !! i = Some (Calling (Some e0)) /\
        r_world r
        = mkWorld (torn e0 (cell w0))
            (history w0 ++
             [Stored e0; Closed; Sent (destroy_request c (cell w0))])
  end.

(** The [Once] and the channel move together, and the client is set. *)
Definition once_ok (s : sessionCtx) : Prop :=
  done s = once s /\ is_Some (client (session s)).

(** The context every renewal request is sent under. *)
Definition renewal_ok (period : Z) (ev : event) : Prop :=
  match ev with
  | Sent r => is_renewal ev = true -> req_ctx r = WithTimeout SessionCtx period
  | _ => True
  end.

(** The invariant of the renewal goroutine over the events [evs] added
    since the session was created. *)
Definition paced (sys : system) (evs : list event) : Prop :=
  let s := cell (sys_world sys) in
  let period := Time.div (TTL (session s)) 3 in
  once_ok s /\
  (forall timeout d : Z,
     sys_routine sys = Looping timeout d -> timeout = period /\ 0 < period) /\
  Forall (renewal_ok period) evs.

(** The request [WithSession] opens with. *)
Definition create_request (seconds : Z -> string) (session : Session)
    : request :=
  let session := resolve session in
  mkRequest (default DefaultClient (client session))
            (WithTimeout CallerCtx (LockDelay session)) "PUT"
            "/v1/session/create" (Some (config_of seconds session)).

(** The states a session context and its goroutine can be in. *)
Definition reachable (consul : agent) (seconds : Z -> string)
    (sys : system) : Prop :=
  exists (now : Z) (ctx0 : Context) (session0 : Session) (h : list event)
         (acts : list action) (sys0 : system),
    boot consul seconds now ctx0 session0 h = Some sys0 /\
    exec consul acts sys0 = Some sys.

(** ** Sample values *)

Definition background : Context := mkContext None false None (fun _ => VNil).

Definition unset : Session := mkSession None "lock" "" "" 0 0.

Definition thirty_seconds : Z -> string := fun _ => "30s".

(** An agent that grants everything. *)
Definition granting : agent := fun _ _ => mkResponse None "sid-1".

(** An agent that creates the session and then fails every renewal. *)
Definition lapsing : agent := fun _ r =>
  if has_prefix "/v1/session/renew/" (req_path r)
  then mkResponse (Some (errorString "renew failed")) ""
  else mkResponse None "sid-1".

(** An agent that is down. *)
Definition unreachable : agent := fun _ _ =>
  mkResponse (Some (errorString "connection refused")) "".

Definition live_cell : sessionCtx :=
  mkSessionCtx (set_ID "sid-1" (resolve unset)) background None false false.

(** A lock-delay of minus one second, everything else unset. *)
Definition hasty : Session := mkSession None "lock" "" "" (-1000000000) 0.

(** The smallest [int64] as lock-delay, everything else unset. *)
Definition extreme : Session := mkSession None "lock" "" "" Time.MinInt64 0.

(** A parent context with a deadline and one value of its own. *)
Definition parent_with_deadline : Context :=
  mkContext (Some 90000000000) false None
            (fun k => if decide (k = Str "trace-id") then VAny (Int 7)
                      else VNil).

Definition bounded_cell : sessionCtx :=
  mkSessionCtx (set_ID "sid-1" (resolve unset)) parent_with_deadline
               None false false.

(** The system right after a successful [WithSession] at time 0, and
    after its goroutine started and renewed once at 10 s. *)
Definition booted_system : system :=
  mkSystem (mkWorld live_cell [Sent (create_request thirty_seconds unset)])
           (Spawned 30000000000).

Definition ticked_system : system :=
  mkSystem
    (mkWorld live_cell
       [Sent (create_request thirty_seconds unset);
        Sent (renew_request DefaultClient 10000000000 live_cell)])
    (Looping 10000000000 40000000000).

(** The system after its goroutine started and the caller cancelled. *)
Definition cancelled_system : system :=
  mkSystem
    (mkWorld (torn Canceled live_cell)
       [Sent (create_request thirty_seconds unset);
        Stored Canceled; Closed;
        Sent (destroy_request DefaultClient live_cell)])
    (Looping 10000000000 30000000000).



(** The system a session with a negative lock-delay boots into. *)
Definition hasty_system : system :=
  mkSystem
    (mkWorld
       (mkSessionCtx (set_ID "sid-1" (resolve hasty)) background
                     None false false)
       [Sent (create_request thirty_seconds hasty)])
    (Spawned (-2000000000)).

(** * Endpoint balancing

    [balancer_test.go] drives five strategies through a [LoadBalancer];
    the file that declares them is not at hand, so this module follows
    the behaviour the specification gives for each of them, under the
    names the test uses. *)

Module Balance.

(** Modelled from the spec: the [Endpoint] record (declared outside
    the files at hand) with the attributes the spec lists, the last of
    them the mutable scratch weight of the weighted shuffle. *)
Record Endpoint : Type := mkEndpoint {
  ID : string;
  Node : string;
  Addr : string;
  Tags : list string;
  Meta : gmap string string;
  RTT : Z;
  expWeight : float;
}.

Definition set_expWeight (w : float) (e : Endpoint) : Endpoint :=
  mkEndpoint (ID e) (Node e) (Addr e) (Tags e) (Meta e) (RTT e) w.

(** What an endpoint describes: every attribute except the scratch
    weight, which "is not meaningful outside" one weighted shuffle. *)
Definition contents (e : Endpoint) : Endpoint := set_expWeight 0%float e.

(** Modelled from the spec: the pseudo-random source checked out of the
    pool (declared outside the files at hand): two streams of draws and
    the number of draws consumed. *)
Record Rand : Type := mkRand {
  ints : nat -> nat;
  exps : nat -> float;
  drawn : nat;
}.

Definition advance (r : Rand) : Rand :=
  mkRand (ints r) (exps r) (S (drawn r)).

(** Modelled from the spec: a uniform draw in [0, n). *)
Definition Intn (n : nat) (r : Rand) : nat * Rand :=
  ((ints r (drawn r) mod n)%nat, advance r).

(** Modelled from the spec: an exponential draw of rate 1. *)
Definition ExpFloat64 (r : Rand) : float * Rand :=
  (exps r (drawn r), advance r).

(** Modelled from the spec: the swap of the uniform shuffle,
    [endpoints[i], endpoints[j] = endpoints[j], endpoints[i]]. *)
Definition swap (i j : nat) (l : list Endpoint) : list Endpoint :=
  match l !! i, l !! j with
  | Some x, Some y => <[i := y]> (<[j := x]> l)
  | _, _ => l
  end.

(** Modelled from the spec: [assignUniformRandomOrder], declared
    outside the files at hand: "for index i from the end of the list
    backward, swap with a uniformly random earlier-or-equal index".
    [shuffle_down i] has the indices below [i] left to visit. *)
Fixpoint shuffle_down (i : nat) (l : list Endpoint) (r : Rand)
    : list Endpoint * Rand :=
  match i with
  | O => (l, r)
  | S i' =>
      let (j, r') := Intn (S i') r in
      shuffle_down i' (swap i' j l) r'
  end.

Definition Shuffle (l : list Endpoint) (r : Rand) : list Endpoint * Rand :=
  shuffle_down (length l) l r.

(** Modelled from the spec: the first half of
    [assignWeightedRandomOrder], declared outside the files at hand:
    "for each endpoint, compute weight = weightFunction(endpoint) x
    exponentialRandomDraw()", kept in the scratch field. *)
Fixpoint assign_weights (WeightOf : Endpoint -> float)
    (l : list Endpoint) (r : Rand) : list Endpoint * Rand :=
  match l with
  | [] => ([], r)
  | e :: l' =>
      let (x, r') := ExpFloat64 r in
      let (l'', r'') := assign_weights WeightOf l' r' in
      (set_expWeight (PrimFloat.mul (WeightOf e) x) e :: l'', r'')
  end.

Fixpoint insert_by_weight (e : Endpoint) (l : list Endpoint)
    : list Endpoint :=
  match l with
  | [] => [e]
  | x :: l' =>
      if PrimFloat.ltb (expWeight e) (expWeight x) then e :: x :: l'
      else x :: insert_by_weight e l'
  end.

(** Modelled from the spec: "sort ascending by this value", by
    insertion; an endpoint goes before the first one that weighs more. *)
Fixpoint sort_by_weight (l : list Endpoint) : list Endpoint :=
  match l with
  | [] => []
  | e :: l' => insert_by_weight e (sort_by_weight l')
  end.

(** Modelled from the spec: [assignWeightedRandomOrder], declared
    outside the files at hand: weights are assigned, then the list is
    sorted by them. *)
Definition WeightedShuffle (WeightOf : Endpoint -> float)
    (l : list Endpoint) (r : Rand) : list Endpoint * Rand :=
  let (l', r') := assign_weights WeightOf l r in
  (sort_by_weight l', r').

(** Modelled from the spec: "the list rotated so that the element at
    [k] is first". *)
Definition rotated (k : nat) (l : list Endpoint) : list Endpoint :=
  drop k l ++ take k l.

(** Modelled from the spec: "endpoints matching at least one preferred
    tag". *)
Definition preferred (tags : list string) (e : Endpoint) : bool :=
  existsb (fun t => existsb (String.eqb t) tags) (Tags e).

(** Modelled from the spec: the strategy variants, declared outside
    the files at hand.  A rotation holds a counter; the others hold
    their configuration only. *)
Inductive Balancer : Type :=
  | RoundRobin (offset : nat)
  | PreferTags (tags : list string)
  | MultiBalancer (balancers : list Balancer)
  | Shuffler
  | WeightedShuffler (WeightOf : Endpoint -> float).

(** Modelled from the spec: [Balance] of each strategy, declared
    outside the files at hand.
    - Rotation: "each call advances the counter by one and returns the
      list rotated so that the element at counter mod length is first".
    - Tag-affinity: a stable partition, preferred endpoints first.
    - Composition: "applies a sequence of strategies left to right,
      each receiving the previous strategy's output".
    - Uniform and weighted shuffle: adapters over the two operations
      above.
    The result carries the strategy's next state and the source's. *)
Fixpoint Balance (b : Balancer) (name : string) (E : list Endpoint)
    (r : Rand) {struct b} : Balancer * list Endpoint * Rand :=
  match b with
  | RoundRobin offset =>
      let offset' := S offset in
      (RoundRobin offset', rotated (offset' mod length E)%nat E, r)
  | PreferTags tags =>
      (b, List.filter (preferred tags) E
          ++ List.filter (fun e => negb (preferred tags e)) E, r)
  | MultiBalancer balancers =>
      let fix chain (bs : list Balancer) (E : list Endpoint) (r : Rand)
          : list Balancer * list Endpoint * Rand :=
        match bs with
        | [] => ([], E, r)
        | b :: bs' =>
            let '(b', E', r') := Balance b name E r in
            let '(bs'', E'', r'') := chain bs' E' r' in
            (b' :: bs'', E'', r'')
        end in
      let '(bs, E', r') := chain balancers E r in
      (MultiBalancer bs, E', r')
  | Shuffler =>
      let (E', r') := Shuffle E r in (b, E', r')
  | WeightedShuffler WeightOf =>
      let (E', r') := WeightedShuffle WeightOf E r in (b, E', r')
  end.

(** Modelled from the spec: the composition, the same chain as in
    [Balance], as a function of its own. *)
Fixpoint chain (name : string) (bs : list Balancer) (E : list Endpoint)
    (r : Rand) : list Balancer * list Endpoint * Rand :=
  match bs with
  | [] => ([], E, r)
  | b :: bs' =>
      let '(b', E', r') := Balance b name E r in
      let '(bs'', E'', r'') := chain name bs' E' r' in
      (b' :: bs'', E'', r'')
  end.

(** Modelled from the spec: the per-service load balancer, declared
    outside the files at hand: one strategy instance per service name,
    built by the factory on first use and kept. *)
Record LoadBalancer : Type := mkLoadBalancer {
  New : unit -> Balancer;
  instances : gmap string Balancer;
}.

(** Modelled from the spec: the instance for a service name, the one
    kept or else a new one from the factory. *)
Definition instance_for (lb : LoadBalancer) (name : string) : Balancer :=
  match instances lb !! name with
  | Some b => b
  | None => New lb ()
  end.

(** Modelled from the spec: "looks up an existing strategy instance
    for serviceName; if absent, constructs one via the configured
    factory and stores it; delegates to that instance's balance". *)
Definition LoadBalance (lb : LoadBalancer) (name : string)
    (E : list Endpoint) (r : Rand) : LoadBalancer * list Endpoint * Rand :=
  let b := instance_for lb name in
  let '(b', E', r') := Balance b name E r in
  (mkLoadBalancer (New lb) (<[name := b']> (instances lb)), E', r').

(** [n] consecutive calls on the same input list. *)
Fixpoint consecutive (n : nat) (b : Balancer) (name : string)
    (E : list Endpoint) (r : Rand) : list (list Endpoint) :=
  match n with
  | O => []
  | S n' =>
      let '(b', E', r') := Balance b name E r in
      E' :: consecutive n' b' name E r'
  end.

(** A strategy that never writes the scratch weight. *)
Fixpoint scratch_free (b : Balancer) : bool :=
  match b with
  | WeightedShuffler _ => false
  | MultiBalancer bs => forallb scratch_free bs
  | _ => true
  end.

(** [Balance b] returns its input reordered, as seen through [g]. *)
Definition keeps {A : Type} (g : Endpoint -> A) (name : string)
    (b : Balancer) : Prop :=
  forall (E : list Endpoint) (r : Rand),
    map g (Balance b name E r).1.2 ≡ₚ map g E.

(** ** Sample values *)

Definition endpoint (id : string) (tags : list string) (rtt : Z) : Endpoint :=
  mkEndpoint id "node-1" "10.0.0.1:8080" tags ∅ rtt 0%float.

Definition fleet : list Endpoint :=
  [endpoint "a" ["us-west-2a"] 10000000;
   endpoint "b" ["us-west-2b"] 200000000;
   endpoint "c" ["us-west-2a"] 0].

Definition dice : Rand :=
  mkRand (fun n => (7 * n + 3)%nat) (fun _ => 1%float) 0.

(** The composition the test builds: tag affinity, then rotation. *)
Definition zoned : Balancer :=
  MultiBalancer [PreferTags ["us-west-2a"]; RoundRobin 0].

Definition per_service : LoadBalancer := mkLoadBalancer (fun _ => zoned) ∅.

End Balance.

(** ** More of [session.go] *)

(** [contextSession]: [ctx.Value(SessionKey).(Session)]; the type
    assertion panics on anything but a [Session].  [lookup] is the
    [Value] method of the context. *)
Definition contextSession (lookup : any -> value) : option Session :=
  match lookup SessionKey with
  | VSession s => Some s
  | _ => None
  end.

(** The loop taking the tick case at each of the given instants. *)
Definition ticks (nows : list Z) : list action :=
  List.map (fun now => Select (SelTick now)) nows.

(** The requests a session context sends for itself. *)
Definition own_event (c : Client) (s : sessionCtx) (ev : event) : Prop :=
  match ev with
  | Sent r =>
      r = renew_request c (Time.div (TTL (session s)) 3) s \/
      r = destroy_request c s
  | _ => True
  end.

(** What holds of a session context and its goroutine at all times. *)
Definition sound (c : Client) (sys : system) : Prop :=
  let s := cell (sys_world sys) in
  done s = once s /\
  client (session s) = Some c /\
  (done s = true <-> is_Some (err s)) /\
  (sys_routine sys = Returned -> done s = true) /\
  (forall timeout d : Z,
     sys_routine sys = Looping timeout d ->
     timeout = Time.div (TTL (session s)) 3).

(** ** [duration] and JSON

    [time.Duration.String], [time.ParseDuration], [strconv.ParseFloat],
    [json.Unmarshal] into a string and the conversion of a [float64] to
    [int64] are the library's: they stay parameters. *)

Definition quote : ascii := ascii_of_N 34.

Section DurationJSON.

Variable Duration_String : Z -> string.
Variable ParseDuration : string -> Z + error.
Variable ParseFloat : string -> float + error.
Variable json_Unmarshal : string -> string + error.
Variable to_int64 : float -> Z.

Definition MarshalJSON (d : Z) : string + error :=
  inl (String quote (Duration_String d +:+ String quote EmptyString)).

(** The new value of [*d], or the error returned ([*d] is then left as
    it was). *)
Definition UnmarshalJSON (b : string) : Z + error :=
  let bare :=
    match b with
    | EmptyString => true
    | String a _ => negb (Ascii.eqb a quote)
    end in
  if bare then
    match ParseFloat b with
    | inr e => inr e
    | inl v => inl (to_int64 (PrimFloat.mul v 1000000000%float))
    end
  else
    match json_Unmarshal b with
    | inr e => inr e
    | inl s =>
        match ParseDuration s with
        | inr e => inr e
        | inl v => inl v
        end
    end.

End DurationJSON.

(** Stand-ins for the library at one duration: fifteen seconds. *)
Definition sample_Duration_String (d : Z) : string :=
  if d =? 15000000000 then "15s" else "0s".

Definition sample_ParseDuration (s : string) : Z + error :=
  if String.eqb s "15s" then inl 15000000000
  else inr (errorString "time: invalid duration").

Definition sample_ParseFloat (s : string) : float + error :=
  inr (errorString "strconv.ParseFloat: invalid syntax").

Fixpoint drop_last (s : string) : string :=
  match s with
  | EmptyString => EmptyString
  | String a EmptyString => EmptyString
  | String a s' => String a (drop_last s')
  end.

Definition sample_json_Unmarshal (b : string) : string + error :=
  match b with
  | String a s' =>
      if Ascii.eqb a quote then inl (drop_last s')
      else inr (errorString "json: cannot unmarshal")
  | EmptyString => inr (errorString "unexpected end of JSON input")
  end.

Definition sample_to_int64 (f : float) : Z := 0.

(** * The client

    The client of the agent: how [Do] finds the agent, what request it
    builds, what it makes of the answer, and the query strings it sends.
    The libraries it calls stay parameters ([json.Marshal], the decoder,
    [url.URL.String], the round tripper), except [strings.Index] and
    [url.QueryEscape], which are written out as documented. *)

Module Api.

(** ** Strings as byte sequences *)

Fixpoint str_take (n : nat) (s : string) : string :=
  match n, s with
  | S n', String a s' => String a (str_take n' s')
  | _, _ => EmptyString
  end.

Fixpoint str_drop (n : nat) (s : string) : string :=
  match n, s with
  | S n', String _ s' => str_drop n' s'
  | _, _ => s
  end.

(** [strings.Index(s, sep)]: where [sep] first occurs in [s]; [None]
    is the -1 of Go. *)
Fixpoint Index (s sep : string) : option nat :=
  if has_prefix sep s then Some O
  else match s with
       | EmptyString => None
       | String _ s' => option_map S (Index s' sep)
       end.

Fixpoint all_bytes (ok : Ascii.ascii -> bool) (s : string) : bool :=
  match s with
  | EmptyString => true
  | String a s' => ok a && all_bytes ok s'
  end.

(** [strings.Split(s, sep)] for a separator of one byte. *)
Fixpoint split_on (sep : Ascii.ascii) (s : string) : list string :=
  match s with
  | EmptyString => [EmptyString]
  | String a s' =>
      if Ascii.eqb a sep then EmptyString :: split_on sep s'
      else match split_on sep s' with
           | w :: ws => String a w :: ws
           | [] => [String a EmptyString]
           end
  end.

(** ** [url.QueryEscape]

    Letters, digits and [-_.~] stand for themselves, a space becomes
    [+], every other byte becomes [%XX] in upper-case hexadecimal. *)

Definition between (lo hi : N) (c : Ascii.ascii) : bool :=
  (lo <=? Ascii.N_of_ascii c)%N && (Ascii.N_of_ascii c <=? hi)%N.

Definition unreserved (c : Ascii.ascii) : bool :=
  between 97 122 c || between 65 90 c || between 48 57 c ||
  Ascii.eqb c "-"%char || Ascii.eqb c "_"%char ||
  Ascii.eqb c "."%char || Ascii.eqb c "~"%char.

Definition upperhex (n : N) : Ascii.ascii :=
  if (n <? 10)%N then Ascii.ascii_of_N (48 + n) else Ascii.ascii_of_N (55 + n).

Definition escape_byte (c : Ascii.ascii) : string :=
  if unreserved c then String c EmptyString
  else if Ascii.eqb c " "%char then "+"
  else String "%"%char (String (upperhex (Ascii.N_of_ascii c / 16))
                     (String (upperhex (Ascii.N_of_ascii c mod 16))
                        EmptyString)).

Fixpoint QueryEscape (s : string) : string :=
  match s with
  | EmptyString => EmptyString
  | String c s' => escape_byte c +:+ QueryEscape s'
  end.

(** The bytes [QueryEscape] writes. *)
Definition escaped_byte (c : Ascii.ascii) : bool :=
  unreserved c || Ascii.eqb c "+"%char || Ascii.eqb c "%"%char.

(** [strings.Join]. *)
Fixpoint join (sep : string) (l : list string) : string :=
  match l with
  | [] => EmptyString
  | [x] => x
  | x :: l' => (x +:+ sep) +:+ join sep l'
  end.

(** The bytes a query string is made of. *)
Definition query_byte (c : Ascii.ascii) : bool :=
  unreserved c || Ascii.eqb c "+"%char || Ascii.eqb c "%"%char ||
  Ascii.eqb c "&"%char || Ascii.eqb c "="%char.

(** ** [Query] *)

Record Param : Type := mkParam {
  Name : string;
  Value : string;
}.

Abbreviation Query := (list Param) (only parsing).

(** The loop of [Query.String]: [i] is the index of the next parameter
    and [b] the bytes appended so far. *)
Fixpoint String_loop (i : nat) (q : Query) (b : string) : string :=
  match q with
  | [] => b
  | p :: q' =>
      let b := if (i =? 0)%nat then b else b +:+ "&" in
      let b := b +:+ QueryEscape (Name p) in
      let b :=
        if (String.length (Value p) =? 0)%nat then b
        else (b +:+ "=") +:+ QueryEscape (Value p) in
      String_loop (S i) q' b
  end.

Definition Query_String (q : Query) : string := String_loop 0 q EmptyString.

(** [url.Values] is a [map[string][]string]; [Set] replaces what the
    key had. *)
Definition Query_Values (q : Query) : gmap string (list string) :=
  foldl (fun v p => <[Name p := [Value p]]> v) ∅ q.

(** One parameter as [Query.String] writes it. *)
Definition encode_param (p : Param) : string :=
  if (String.length (Value p) =? 0)%nat then QueryEscape (Name p)
  else (QueryEscape (Name p) +:+ "=") +:+ QueryEscape (Value p).

(** ** [Client] and [Do] *)

Definition DefaultAddress : string := "localhost:8500".

Record URL : Type := mkURL {
  Scheme : string;
  Host : string;
  Path : string;
  RawQuery : string;
}.

Record Header : Type := mkHeader {
  Accept : string;
  ContentType : string;
  HostHeader : string;
  UserAgentHeader : string;
}.

Record Response : Type := mkResponse {
  StatusCode : Z;
  Status : string;
  ResponseBody : string;
}.

Definition StatusOK : Z := 200.

(** Where [Do] sends its requests: the scheme and the host that
    [c.Address] stands for. *)
Definition locate (address : string) : string * string :=
  if (String.length address =? 0)%nat then ("http", DefaultAddress)
  else match Index address "://" with
       | Some i => (str_take i address, str_drop (i + 3) address)
       | None => ("http", address)
       end.

Section Do.

(** The context type, the values sent and received, and the library
    calls of [Do]. *)
Variables (C V R : Type).
Variable Marshal : V -> string + error.
Variable Decode : string -> R + error.
Variable URL_String : URL -> string.
Variable DefaultUserAgent : string.

Record Request : Type := mkRequest {
  Method : string;
  Url : URL;
  Headers : Header;
  Body : string;
  ContentLength : Z;
  Ctx : option C;
}.

Definition RoundTripper : Type := Request -> Response + error.

Variable DefaultTransport : RoundTripper.

Record Client : Type := mkClient {
  Address : string;
  UserAgent : string;
  Datacenter : string;
  Session : string;
  Transport : option RoundTripper;
}.

(** The [send] argument: nil, a [[]byte], or a value to marshal. *)
Inductive payload : Type :=
  | SendNil
  | SendBytes (data : string)
  | SendValue (v : V).

(** What a call leaves: the error returned, the value decoded into
    [recv], and the requests handed to the round tripper. *)
Record reply : Type := mkReply {
  reply_err : option error;
  reply_recv : option R;
  reply_sent : list Request;
}.

Definition body_of (send : payload) : string + error :=
  match send with
  | SendNil => inl EmptyString
  | SendBytes data => inl data
  | SendValue v => Marshal v
  end.

(** [recv] says whether the caller passed a non-nil [recv]. *)
Definition Do (c : Client) (ctx : option C) (method path : string)
    (query : Query) (send : payload) (recv : bool) : reply :=
  let '(scheme, address) := locate (Address c) in
  let userAgent :=
    if (String.length (UserAgent c) =? 0)%nat then DefaultUserAgent
    else UserAgent c in
  let transport :=
    match Transport c with
    | None => DefaultTransport
    | Some t => t
    end in
  let query :=
    if (String.length (Datacenter c) =? 0)%nat then query
    else query ++ [mkParam "dc" (Datacenter c)] in
  let url := mkURL scheme address path (Query_String query) in
  match body_of send with
  | inr e => mkReply (Some e) None []
  | inl body =>
      let req :=
        mkRequest method url
          (mkHeader "application/json; charset=utf-8"
                    "application/json; charset=utf-8" address userAgent)
          body (Z.of_nat (String.length body)) ctx in
      match transport req with
      | inr e => mkReply (Some e) None [req]
      | inl res =>
          if negb (StatusCode res =? StatusOK) then
            mkReply
              (Some (errorString
                       ((((method +:+ " ") +:+ URL_String url) +:+ ": ")
                        +:+ Status res)))
              None [req]
          else if recv then
            match Decode (ResponseBody res) with
            | inl v => mkReply None (Some v) [req]
            | inr e => mkReply (Some e) None [req]
            end
          else mkReply None None [req]
      end
  end.

Definition Get (c : Client) (ctx : option C) (path : string)
    (query : Query) (recv : bool) : reply :=
  Do c ctx "GET" path query SendNil recv.

Definition Put (c : Client) (ctx : option C) (path : string)
    (query : Query) (send : payload) (recv : bool) : reply :=
  Do c ctx "PUT" path query send recv.

Definition Delete (c : Client) (ctx : option C) (path : string)
    (query : Query) : reply :=
  Do c ctx "DELETE" path query SendNil false.

Definition checkSession (c : Client) (op : string) : option error :=
  if (String.length (Session c) =? 0)%nat
  then Some (errorString
               (op +:+ " requires a consul session but the client has none"))
  else None.

End Do.

(** ** Sample values *)

Definition sample_transport : RoundTripper unit :=
  fun req =>
    if String.eqb (Method unit req) "DELETE"
    then inl (mkResponse 404 "404 Not Found" "")
    else inl (mkResponse 200 "200 OK" "[]").

Definition sample_client : Client unit :=
  mkClient unit "https://consul.internal:8501" "" "dc1" "" None.

Definition sample_query : Query :=
  [mkParam "tag" "a b"; mkParam "passing" ""; mkParam "tag" "c&d"].

Definition sample_marshal (v : bool) : string + error :=
  if v then inl "true" else inr (errorString "json: unsupported value").

Definition sample_decode (b : string) : string + error := inl b.

Definition sample_url_string (u : URL) : string :=
  ((Scheme u +:+ "://") +:+ Host u) +:+ Path u.

Definition sample_Do :=
  Do unit bool string sample_marshal sample_decode sample_url_string
     "consul-go" sample_transport.

(** A lookup of the healthy instances of a service, a deletion of a
    key, and a write whose value cannot be marshalled. *)
Definition sample_get : reply unit string :=
  sample_Do sample_client None "GET" "/v1/health/service/web" sample_query
            (SendNil bool) true.

Definition sample_delete : reply unit string :=
  sample_Do sample_client None "DELETE" "/v1/kv/lock" [] (SendNil bool) false.

Definition sample_put : reply unit string :=
  sample_Do sample_client None "PUT" "/v1/kv/lock" [] (SendValue bool false)
            true.

End Api.

(** * Properties

    ** Teardown *)

Ltac run_monad :=
  unfold cancel, cancelWithError, run_turn, run_enter, NewTicker, Store,
    close, destroySession, renewSession, createSession, Put, update, emit,
    self, panic, mbind, mret, M_bind, M_ret; simpl.

Section Teardown.

Variable consul : agent.

Lemma cancelWithError_live (s : sessionCtx) (h : list event) (c : Client)
    (e : error) :
  once s = false -> done s = false -> client (session s) = Some c ->
  cancelWithError consul (Some e) (mkWorld s h)
  = Some (tt, mkWorld (torn e s)
                (h ++ [Stored e; Closed; Sent (destroy_request c s)])).
Proof.
  intros Ho Hd Hc. run_monad.
  rewrite Ho; simpl. rewrite Hd; simpl. rewrite Hc; simpl.
  unfold torn, destroy_request. rewrite <- !app_assoc. reflexivity.
Qed.

Lemma cancelWithError_fired (w : world sessionCtx) (e : option error) :
  once (cell w) = true -> cancelWithError consul e w = Some (tt, w).
Proof. intros Ho. run_monad. rewrite Ho. reflexivity. Qed.

Lemma run_turn_tick (s : sessionCtx) (h : list event) (c : Client)
    (timeout deadline now : Z) :
  client (session s) = Some c ->
  run_turn consul timeout deadline (SelTick now) (mkWorld s h)
  = (let r := renew_request c timeout s in
     let w1 := mkWorld s (h ++ [Sent r]) in
     match resp_err (consul h r) with
     | None => Some (Looping timeout (Time.Add now (TTL (session s))), w1)
     | Some e =>
         if Time.Before now deadline
         then Some (Looping timeout deadline, w1)
         else match cancelWithError consul (Some e) w1 with
              | Some (_, w2) => Some (Returned, w2)
              | None => None
              end
     end).
Proof.
  intros Hc. unfold run_turn, renewSession, Put, self, mbind, mret, M_bind,
    M_ret. simpl. rewrite Hc. simpl. unfold renew_request.
  destruct (resp_err (consul h _)) as [e|]; [|reflexivity].
  destruct (Time.Before now deadline); reflexivity.
Qed.

Lemma teardowns_app (h1 h2 : list event) :
  teardowns (h1 ++ h2) = teardowns h1 ++ teardowns h2.
Proof. apply List.filter_app. Qed.

Lemma destroys_app (h1 h2 : list event) :
  destroys (h1 ++ h2) = (destroys h1 + destroys h2)%nat.
Proof. unfold destroys. rewrite List.filter_app, length_app. reflexivity. Qed.

Lemma frozen_refl (w : world sessionCtx) :
  once (cell w) = true -> frozen w w.
Proof. intros H. repeat split; auto. Qed.

Lemma frozen_trans (w1 w2 w3 : world sessionCtx) :
  frozen w1 w2 -> frozen w2 w3 -> frozen w1 w3.
Proof.
  intros (?&?&?&?&?&?) (?&?&?&?&?&?). repeat split; congruence.
Qed.

Lemma frozen_renew (s : sessionCtx) (h : list event) (r : request) :
  once s = true -> is_teardown (Sent r) = false ->
  frozen (mkWorld s h) (mkWorld s (h ++ [Sent r])).
Proof.
  intros Ho Hr. repeat split; auto; simpl.
  - rewrite teardowns_app. simpl. unfold teardowns at 2. simpl.
    simpl in Hr. rewrite Hr. apply app_nil_r.
  - rewrite destroys_app. unfold destroys at 2. simpl.
    simpl in Hr. rewrite Hr. simpl. lia.
Qed.

Lemma renew_not_teardown (c : Client) (timeout : Z) (s : sessionCtx) :
  is_teardown (Sent (renew_request c timeout s)) = false.
Proof. reflexivity. Qed.

Lemma step_frozen (a : action) (sys sys' : system) :
  once (cell (sys_world sys)) = true ->
  is_Some (client (session (cell (sys_world sys)))) ->
  step consul a sys = Some sys' ->
  frozen (sys_world sys) (sys_world sys').
Proof.
  destruct sys as [[s h] t]. simpl. intros Ho [c Hc] Hstep.
  destruct a as [|e| |sel]; simpl in Hstep.
  - unfold cancel in Hstep. rewrite cancelWithError_fired in Hstep by done.
    inversion Hstep. by apply frozen_refl.
  - destruct (ctx_Done (ctx s)); [done|]. inversion Hstep.
    repeat split; auto.
  - destruct t as [d|? ?|]; try done.
    unfold run_enter, NewTicker, self, mbind, mret, M_bind, M_ret in Hstep.
    simpl in Hstep.
    destruct (Time.div (TTL (session s)) 3 <=? 0); simpl in Hstep; [done|].
    inversion Hstep. by apply frozen_refl.
  - destruct t as [d|timeout d|]; try done.
    destruct (ready s sel); [|done].
    destruct sel as [| |now].
    + inversion Hstep. by apply frozen_refl.
    + unfold run_turn, self, mbind, mret, M_bind, M_ret in Hstep.
      simpl in Hstep. rewrite cancelWithError_fired in Hstep by done.
      inversion Hstep. by apply frozen_refl.
    + rewrite (run_turn_tick _ _ c) in Hstep by done. simpl in Hstep.
      pose proof (frozen_renew s h (renew_request c timeout s) Ho
                    (renew_not_teardown _ _ _)) as Hf.
      destruct (resp_err _) as [e|].
      * destruct (Time.Before now d).
        -- inversion Hstep. exact Hf.
        -- rewrite cancelWithError_fired in Hstep by done.
           inversion Hstep. exact Hf.
      * inversion Hstep. exact Hf.
Qed.

Lemma exec_frozen (acts : list action) : forall (sys sys' : system),
  once (cell (sys_world sys)) = true ->
  is_Some (client (session (cell (sys_world sys)))) ->
  exec consul acts sys = Some sys' ->
  frozen (sys_world sys) (sys_world sys').
Proof.
  induction acts as [|a acts IH]; intros sys sys' Ho Hc Hex; simpl in Hex.
  - inversion Hex; subst. by apply frozen_refl.
  - destruct (step consul a sys) as [sys1|] eqn:Hs; [|done].
    pose proof (step_frozen _ _ _ Ho Hc Hs) as Hf.
    eapply frozen_trans; [exact Hf|].
    destruct Hf as (Ho1 & _ & _ & Hs1 & _).
    apply IH; auto. by rewrite Hs1.
Qed.

(** *** Every interleaving amounts to one atomic call *)

Lemma move_inv (c : Client) (w0 : world sessionCtx) (callers0 : list caller)
    (i : nat) (r r' : race) :
  once (cell w0) = false -> done (cell w0) = false ->
  client (session (cell w0)) = Some c ->
  race_inv c w0 callers0 r -> move consul i r = Some r' ->
  race_inv c w0 callers0 r'.
Proof.
  destruct w0 as [s0 h0]. simpl. intros Ho Hd Hc (Hcall & Hback & Hl) Hm.
  unfold move in Hm.
  destruct (r_callers r !! i) as [[e|]|] eqn:Hi; try done.
  assert (Hins : forall k e1,
            <[i := Back]> (r_callers r) !! k = Some (Calling e1) ->
            callers0 !! k = Some (Calling e1)).
  { intros k e1 Hk. apply list_lookup_insert_Some in Hk.
    destruct Hk as [(_ & ? & _)|[_ Hk]]; [done|by apply Hcall]. }
  destruct r as [w l cs]. simpl in *. destruct l as [|j e' st|].
  - inversion Hm; subst; clear Hm. split; [done|]. split.
    + intros k Hk. destruct (Hback k Hk) as [?|?]; [by left|done].
    + simpl. split; [by apply Hcall|]. split; [done|]. by left.
  - destruct (Nat.eqb_spec i j) as [->|]; [|done].
    destruct Hl as (Hj0 & Hj & Hw).
    assert (Hkeep : forall k, cs !! k = Some Back ->
              callers0 !! k = Some Back \/ Held j e' st = Shut)
      by exact Hback.
    destruct st.
    + (* AtStore *)
      assert (w = mkWorld s0 h0) as ->.
      { destruct Hw as [[_ ?]|(e0 & _ & ?)]; done. }
      destruct e' as [e0|]; [|done]. revert Hm. run_monad.
      intros [= <-]. split; [done|]. split.
      * intros k Hk. destruct (Hback k Hk) as [?|?]; [by left|done].
      * simpl. split; [done|]. split; [done|]. right. by exists e0.
    + (* AtClose *)
      destruct Hw as [[? _]|(e0 & -> & ->)]; [done|].
      revert Hm. run_monad. rewrite Hd. simpl.
      intros [= <-]. split; [done|]. split.
      * intros k Hk. destruct (Hback k Hk) as [?|?]; [by left|done].
      * simpl. split; [done|]. split; [done|]. right. exists e0.
        split; [done|]. unfold midway. simpl. by rewrite <- app_assoc.
    + (* AtDestroy *)
      destruct Hw as [[? _]|(e0 & -> & ->)]; [done|].
      revert Hm. unfold midway, body_step. run_monad. rewrite Hc. simpl.
      intros [= <-]. split; [done|]. split.
      * intros k Hk. destruct (Hback k Hk) as [?|?]; [by left|done].
      * simpl. split; [done|]. split; [done|]. right. exists e0.
        split; [done|]. unfold midway, destroy_request. simpl.
        by rewrite <- app_assoc.
    + (* AtUnlock *)
      destruct Hw as [[? _]|(e0 & -> & ->)]; [done|].
      revert Hm. run_monad.
      intros [= <-]. split; [exact Hins|]. split; [by right|].
      simpl. by exists j, e0.
  - inversion Hm; subst; clear Hm. split; [exact Hins|]. split; [by right|].
    exact Hl.
Qed.

Lemma race_run_inv (c : Client) (w0 : world sessionCtx)
    (callers0 : list caller) (schedule : list nat) : forall r r' : race,
  once (cell w0) = false -> done (cell w0) = false ->
  client (session (cell w0)) = Some c ->
  race_inv c w0 callers0 r -> race_run consul schedule r = Some r' ->
  race_inv c w0 callers0 r'.
Proof.
  induction schedule as [|i schedule IH]; intros r r' Ho Hd Hc Hinv Hrun;
    simpl in Hrun.
  - by inversion Hrun; subst.
  - destruct (move consul i r) as [r1|] eqn:Hm; [|done].
    apply (IH r1 r' Ho Hd Hc); [|exact Hrun].
    exact (move_inv c w0 callers0 i r r1 Ho Hd Hc Hinv Hm).
Qed.

(** Any number of callers race for a live context, each with its own
    cause, under any schedule.  Once one of them has returned, the world
    is the one a single atomic [cancelWithError] leaves, called with the
    cause of one of the callers: there is one store, one close and one
    destroy request, whatever the interleaving. *)
Lemma race_linearises (c : Client) (w0 : world sessionCtx)
    (causes : list (option error)) (schedule : list nat) (r : race) (i : nat) :
  once (cell w0) = false -> done (cell w0) = false ->
  client (session (cell w0)) = Some c ->
  race_run consul schedule (mkRace w0 Open (map Calling causes)) = Some r ->
  r_callers r !! i = Some Back ->
  exists (j : nat) (e0 : error),
    causes !! j = Some (Some e0) /\
    cancelWithError consul (Some e0) w0 = Some (tt, r_world r).
Proof.
  intros Ho Hd Hc Hrun Hi.
  assert (Hinv0 : race_inv c w0 (map Calling causes)
                    (mkRace w0 Open (map Calling causes))).
  { split; [done|]. split; [by left|done]. }
  destruct (race_run_inv c w0 _ schedule _ r Ho Hd Hc Hinv0 Hrun)
    as (_ & Hback & Hl).
  destruct (Hback i Hi) as [Hb|Hs].
  - rewrite list_lookup_fmap in Hb. by destruct (causes !! i).
  - rewrite Hs in Hl. destruct Hl as (j & e0 & Hj & ->).
    exists j, e0. split.
    + rewrite list_lookup_fmap in Hj.
      destruct (causes !! j) as [e|]; simpl in Hj; congruence.
    + destruct w0 as [s0 h0]. by apply cancelWithError_live.
Qed.

Lemma cancelWithError_cases (w w' : world sessionCtx) (e : option error) :
  cancelWithError consul e w = Some (tt, w') ->
  (once (cell w) = true /\ w' = w) \/
  (once (cell w) = false /\ done (cell w) = false /\
   exists e0 c, e = Some e0 /\ client (session (cell w)) = Some c /\
     w' = mkWorld (torn e0 (cell w))
            (history w ++
             [Stored e0; Closed; Sent (destroy_request c (cell w))])).
Proof.
  destruct w as [s h]. simpl. intros H.
  destruct (once s) eqn:Ho.
  - left. rewrite cancelWithError_fired in H by done. split; congruence.
  - right. destruct e as [e0|]; [|revert H; run_monad; by rewrite Ho].
    destruct (done s) eqn:Hd;
      [revert H; run_monad; rewrite Ho; simpl; by rewrite Hd|].
    destruct (client (session s)) as [c|] eqn:Hc;
      [|revert H; run_monad; rewrite Ho; simpl; rewrite Hd; simpl;
        by rewrite Hc].
    rewrite (cancelWithError_live _ _ c) in H by done.
    repeat split; auto. exists e0, c. repeat split; congruence.
Qed.

(** C1.  Teardown runs at most once.  On a live context the first
    [cancelWithError e] records [e], closes the done channel and sends
    one destroy request.  Whatever happens afterwards, in any number and
    any order (the caller's cancel, the end of the parent context, late
    ticks with failing renewals), the recorded error and the done channel
    stay as they are, no further store, close or destroy request is
    added to the history, and every later [cancelWithError], whatever
    its cause, returns normally without touching anything.  When the
    calls race instead, step by step under any schedule, the world that
    the first caller to return finds is the world one such atomic call
    leaves, for the cause of the caller that entered the [Once] first. *)
Theorem cancelWithError_at_most_once (s : sessionCtx) (h : list event)
    (c : Client) (e : error) (t : routine) :
  once s = false -> done s = false -> client (session s) = Some c ->
  (exists w1,
     cancelWithError consul (Some e) (mkWorld s h) = Some (tt, w1) /\
     Err (cell w1) = Some e /\ Done (cell w1) = true /\
     teardowns (history w1)
     = teardowns h ++ [Stored e; Closed; Sent (destroy_request c s)] /\
     destroys (history w1) = S (destroys h) /\
     forall (acts : list action) (sys' : system),
       exec consul acts (mkSystem w1 t) = Some sys' ->
       Err (cell (sys_world sys')) = Some e /\
       Done (cell (sys_world sys')) = true /\
       teardowns (history (sys_world sys')) = teardowns (history w1) /\
       destroys (history (sys_world sys')) = destroys (history w1) /\
       forall e' : option error,
         cancelWithError consul e' (sys_world sys')
         = Some (tt, sys_world sys')) /\
  (forall (causes : list (option error)) (schedule : list nat) (r : race)
          (i : nat),
     race_run consul schedule (mkRace (mkWorld s h) Open (map Calling causes))
     = Some r ->
     r_callers r !! i = Some Back ->
     exists (j : nat) (e0 : error),
       causes !! j = Some (Some e0) /\
       cancelWithError consul (Some e0) (mkWorld s h) = Some (tt, r_world r) /\
       Err (cell (r_world r)) = Some e0 /\
       destroys (history (r_world r)) = S (destroys h)).
Proof.
  intros Ho Hd Hc. split.
  - eexists. split; [by apply cancelWithError_live|].
    simpl. split; [reflexivity|]. split; [reflexivity|].
    split; [rewrite teardowns_app; reflexivity|].
    split; [rewrite destroys_app; unfold destroys at 2; simpl; lia|].
    intros acts sys' Hex.
    apply exec_frozen in Hex; simpl; [|done|by rewrite Hc].
    destruct Hex as (Ho' & He' & Hd' & _ & Ht' & Hn'). simpl in *.
    unfold Err, Done.
    split; [congruence|]. split; [congruence|].
    split; [congruence|]. split; [congruence|].
    intros e'. by apply cancelWithError_fired.
  - intros causes schedule r i Hrun Hi.
    destruct (race_linearises c (mkWorld s h) causes schedule r i
                Ho Hd Hc Hrun Hi) as (j & e0 & Hj & Hr).
    exists j, e0. split; [exact Hj|]. split; [exact Hr|].
    rewrite (cancelWithError_live _ _ c) in Hr by done.
    injection Hr as <-. simpl. split; [reflexivity|].
    rewrite destroys_app. unfold destroys at 2. simpl. lia.
Qed.

Lemma step_teardown (s : sessionCtx) (h : list event) (c : Client)
    (t : routine) (a : action) (sys' : system) :
  once s = false -> done s = false -> client (session s) = Some c ->
  step consul a (mkSystem (mkWorld s h) t) = Some sys' ->
  once (cell (sys_world sys')) = true ->
  exists (e : error) (pre : list event),
    sys_world sys'
    = mkWorld (torn e s)
        (h ++ pre ++ [Stored e; Closed; Sent (destroy_request c s)]) /\
    Forall (fun ev => is_renewal ev = true) pre.
Proof.
  intros Ho Hd Hc Hstep Ho'.
  destruct a as [|e| |sel]; simpl in Hstep.
  - unfold cancel in Hstep.
    rewrite (cancelWithError_live _ _ c) in Hstep by done.
    inversion Hstep; subst. exists Canceled, []. by split.
  - destruct (ctx_Done (ctx s)); [done|]. inversion Hstep; subst.
    simpl in Ho'. congruence.
  - destruct t as [d|? ?|]; try done.
    unfold run_enter, NewTicker, self, mbind, mret, M_bind, M_ret in Hstep.
    simpl in Hstep.
    destruct (Time.div (TTL (session s)) 3 <=? 0); simpl in Hstep; [done|].
    inversion Hstep; subst. simpl in Ho'. congruence.
  - destruct t as [d|timeout d|]; try done.
    destruct (ready s sel) eqn:Hr; [|done].
    destruct sel as [| |now].
    + simpl in Hr. congruence.
    + unfold run_turn, self, mbind, mret, M_bind, M_ret in Hstep.
      simpl in Hstep.
      destruct (ctx_Err (ctx s)) as [e|];
        [|revert Hstep; run_monad; by rewrite Ho].
      rewrite (cancelWithError_live _ _ c) in Hstep by done.
      inversion Hstep; subst. exists e, []. by split.
    + rewrite (run_turn_tick _ _ c) in Hstep by done. simpl in Hstep.
      destruct (resp_err _) as [e|].
      * destruct (Time.Before now d).
        -- inversion Hstep; subst. simpl in Ho'. congruence.
        -- rewrite (cancelWithError_live _ _ c) in Hstep by done.
           inversion Hstep; subst.
           exists e, [Sent (renew_request c timeout s)].
           rewrite <- app_assoc. split; [done|]. by repeat constructor.
      * inversion Hstep; subst. simpl in Ho'. congruence.
Qed.

(** C5.  Teardown of a live context, whatever the cause [e]: the error
    is stored, then the done channel is closed, then one destroy request
    is sent under [context.WithTimeout(context.Background(), LockDelay)],
    a context that no session context, done or not, can end before its
    timer.  The agent's answer to that request plays no part: with any
    other agent the call returns the same result, and the context's
    error is the cause, not the failure of the destroy request.  Every
    transition that tears a live context down (the caller's cancel, the
    end of the parent seen by the loop, a renewal failing past the
    deadline) ends with this same sequence. *)
Theorem cancelWithError_sequence (s : sessionCtx) (h : list event)
    (c : Client) (e : error) :
  once s = false -> done s = false -> client (session s) = Some c ->
  let r := destroy_request c s in
  cancelWithError consul (Some e) (mkWorld s h)
  = Some (tt, mkWorld (torn e s) (h ++ [Stored e; Closed; Sent r])) /\
  req_ctx r = WithTimeout Background (LockDelay (session s)) /\
  (forall s' : sessionCtx, op_done s' false (req_ctx r) = false) /\
  req_path r = "/v1/session/destroy/" +:+ ID (session s) /\
  Err (torn e s) = Some e /\ Done (torn e s) = true /\
  (forall consul' : agent,
     cancelWithError consul' (Some e) (mkWorld s h)
     = cancelWithError consul (Some e) (mkWorld s h)) /\
  (forall (t : routine) (a : action) (sys' : system),
     step consul a (mkSystem (mkWorld s h) t) = Some sys' ->
     once (cell (sys_world sys')) = true ->
     exists (e' : error) (pre : list event),
       sys_world sys'
       = mkWorld (torn e' s) (h ++ pre ++ [Stored e'; Closed; Sent r]) /\
       Forall (fun ev => is_renewal ev = true) pre).
Proof.
  intros Ho Hd Hc r. split; [by apply cancelWithError_live|].
  split; [reflexivity|]. split; [reflexivity|]. split; [reflexivity|].
  split; [reflexivity|]. split; [reflexivity|]. split.
  - intros consul'. run_monad.
    rewrite Ho; simpl. rewrite Hd; simpl. rewrite Hc; simpl. reflexivity.
  - intros t a sys' Hstep Ho'. by apply (step_teardown s h c t a sys').
Qed.

End Teardown.

Lemma cancelWithError_at_most_once_witness :
  (exists w1,
     cancelWithError lapsing (Some Canceled) (mkWorld live_cell [])
     = Some (tt, w1) /\
     Err (cell w1) = Some Canceled /\ Done (cell w1) = true) /\
  (exists (r : race) (j : nat) (e0 : error),
     race_run lapsing [1; 1; 1; 1; 1; 0; 2]%nat
       (mkRace (mkWorld live_cell []) Open
          (map Calling [Some Canceled; Some DeadlineExceeded; None]))
     = Some r /\
     [Some Canceled; Some DeadlineExceeded; None] !! j = Some (Some e0) /\
     Err (cell (r_world r)) = Some e0 /\
     destroys (history (r_world r)) = 1%nat).
Proof.
  destruct (cancelWithError_at_most_once lapsing live_cell [] DefaultClient
              Canceled (Looping 10000000000 30000000000)
              eq_refl eq_refl eq_refl) as [(w1 & H1 & H2 & H3 & _) Hrace].
  split.
  - exists w1. split; [exact H1|]. split; [exact H2|exact H3].
  - eexists.
    assert (Hrun : race_run lapsing [1; 1; 1; 1; 1; 0; 2]%nat
              (mkRace (mkWorld live_cell []) Open
                 (map Calling [Some Canceled; Some DeadlineExceeded; None]))
            = Some _) by (vm_compute; reflexivity).
    destruct (Hrace _ _ _ 0%nat Hrun eq_refl) as (j & e0 & Hj & _ & He & Hn).
    exists j, e0. split; [exact Hrun|].
    split; [exact Hj|]. split; [exact He|exact Hn].
Defined.

(** Three callers race; the second enters first and its cause stays. *)
Example race_of_three :
  exists r,
    race_run lapsing [1; 1; 1; 1; 1; 0; 2]%nat
      (mkRace (mkWorld live_cell []) Open
         (map Calling [Some Canceled; Some DeadlineExceeded; None]))
    = Some r /\
    r_callers r = [Back; Back; Back] /\
    Err (cell (r_world r)) = Some DeadlineExceeded /\
    teardowns (history (r_world r))
    = [Stored DeadlineExceeded; Closed;
       Sent (destroy_request DefaultClient live_cell)].
Proof. eexists. split; [vm_compute; reflexivity|]. by vm_compute. Qed.

(** While the second caller is in the body, the first one waits. *)
Example race_blocks :
  race_run lapsing [1; 1; 0]%nat
    (mkRace (mkWorld live_cell []) Open
       (map Calling [Some Canceled; Some DeadlineExceeded; None]))
  = None.
Proof. by vm_compute. Qed.

Lemma cancelWithError_sequence_witness :
  cancelWithError unreachable (Some DeadlineExceeded) (mkWorld live_cell [])
  = Some (tt, mkWorld (torn DeadlineExceeded live_cell)
                [Stored DeadlineExceeded; Closed;
                 Sent (destroy_request DefaultClient live_cell)]) /\
  req_ctx (destroy_request DefaultClient live_cell)
  = WithTimeout Background 15000000000 /\
  exists (e' : error) (pre : list event),
    mkWorld (torn Canceled live_cell)
      [Stored Canceled; Closed; Sent (destroy_request DefaultClient live_cell)]
    = mkWorld (torn e' live_cell)
        ([] ++ pre ++
         [Stored e'; Closed; Sent (destroy_request DefaultClient live_cell)]) /\
    Forall (fun ev => is_renewal ev = true) pre.
Proof.
  destruct (cancelWithError_sequence unreachable live_cell [] DefaultClient
              DeadlineExceeded eq_refl eq_refl eq_refl)
    as (H1 & H2 & _ & _ & _ & _ & _ & H3).
  split; [exact H1|]. split; [exact H2|].
  exact (H3 (Looping 10000000000 30000000000) Cancel
            (mkSystem
               (mkWorld (torn Canceled live_cell)
                  [Stored Canceled; Closed;
                   Sent (destroy_request DefaultClient live_cell)])
               (Looping 10000000000 30000000000))
            eq_refl eq_refl).
Defined.

(** ** The renewal loop *)

Section Renewal.

Variable consul : agent.

Lemma cancelWithError_paced (w w' : world sessionCtx) (e : option error)
    (period : Z) :
  once_ok (cell w) ->
  cancelWithError consul e w = Some (tt, w') ->
  once_ok (cell w') /\ session (cell w') = session (cell w) /\
  exists evs, history w' = history w ++ evs /\ Forall (renewal_ok period) evs.
Proof.
  intros [Hg Hc] H. apply cancelWithError_cases in H.
  destruct H as [[Ho ->]|(Ho & Hd & e0 & c & -> & Hc' & ->)].
  - repeat split; auto. exists []. by rewrite app_nil_r.
  - simpl. repeat split; auto. eexists. split; [reflexivity|].
    repeat constructor; simpl; discriminate.
Qed.

Lemma paced_intro (sys : system) (evs : list event) :
  once_ok (cell (sys_world sys)) ->
  (forall timeout d : Z,
     sys_routine sys = Looping timeout d ->
     timeout = Time.div (TTL (session (cell (sys_world sys)))) 3 /\
     0 < Time.div (TTL (session (cell (sys_world sys)))) 3) ->
  Forall (renewal_ok (Time.div (TTL (session (cell (sys_world sys)))) 3)) evs ->
  paced sys evs.
Proof.
  intros Hg Ht Hev. unfold paced. split; [exact Hg|].
  split; [exact Ht|exact Hev].
Qed.

Lemma step_paced (a : action) (sys sys' : system) (h evs : list event) :
  paced sys evs ->
  history (sys_world sys) = h ++ evs ->
  step consul a sys = Some sys' ->
  session (cell (sys_world sys')) = session (cell (sys_world sys)) /\
  exists evs', history (sys_world sys') = h ++ evs' /\ paced sys' evs'.
Proof.
  destruct sys as [[s h0] t]. unfold paced at 1. simpl.
  intros (Hg & Ht & Hev) -> Hstep.
  set (period := Time.div (TTL (session s)) 3) in *.
  assert (Hcancel : forall e w' t',
    cancelWithError consul e (mkWorld s (h ++ evs)) = Some (tt, w') ->
    (forall timeout d, t' = Looping timeout d ->
       timeout = period /\ 0 < period) ->
    session (cell w') = session s /\
    exists evs', history w' = h ++ evs' /\ paced (mkSystem w' t') evs').
  { intros e w' t' Hcw Ht'.
    apply (cancelWithError_paced _ _ _ period) in Hcw; [|done].
    destruct Hcw as (Hg' & Hs' & evs2 & Hh' & Hev2). simpl in *.
    split; [done|]. exists (evs ++ evs2). rewrite Hh', app_assoc.
    split; [done|]. apply paced_intro; simpl; rewrite ?Hs'; auto.
    by apply Forall_app. }
  destruct a as [|e| |sel]; simpl in Hstep.
  - destruct (cancel consul _) as [[[] w']|] eqn:Hcw; [|done].
    inversion Hstep; subst; clear Hstep. simpl.
    by apply (Hcancel (Some Canceled)).
  - destruct (ctx_Done (ctx s)); [done|]. inversion Hstep; subst. simpl.
    split; [done|]. exists evs. split; [done|].
    apply paced_intro; simpl; auto.
  - destruct t as [d|? ?|]; try done.
    unfold run_enter, NewTicker, self, mbind, mret, M_bind, M_ret in Hstep.
    simpl in Hstep. fold period in Hstep.
    destruct (period <=? 0) eqn:Hp; simpl in Hstep; [done|].
    inversion Hstep; subst. simpl. split; [done|]. exists evs.
    split; [done|]. apply paced_intro; simpl; auto.
    intros ? ? [= <- <-]. apply Z.leb_gt in Hp. done.
  - destruct t as [d|timeout d|]; try done.
    destruct (ready s sel); [|done].
    destruct (Ht timeout d eq_refl) as [-> Hpos].
    destruct sel as [| |now].
    + inversion Hstep; subst. simpl. split; [done|]. exists evs.
      split; [done|]. apply paced_intro; simpl; auto. discriminate.
    + unfold run_turn, self, mbind, mret, M_bind, M_ret in Hstep.
      simpl in Hstep.
      destruct (cancelWithError consul _ _) as [[[] w']|] eqn:Hcw; [|done].
      inversion Hstep; subst; clear Hstep. simpl.
      apply (Hcancel _ _ _ Hcw). discriminate.
    + destruct Hg as [Hg [c Hc]].
      rewrite (run_turn_tick _ _ _ c) in Hstep by done. simpl in Hstep.
      set (r := renew_request c period s) in *.
      assert (Hr : Forall (renewal_ok period) (evs ++ [Sent r])).
      { apply Forall_app. split; [done|]. by repeat constructor. }
      assert (Hkeep : forall d',
        session s = session s /\
        exists evs', (h ++ evs) ++ [Sent r] = h ++ evs' /\
          paced (mkSystem (mkWorld s ((h ++ evs) ++ [Sent r]))
                          (Looping period d')) evs').
      { intros d'. split; [done|]. exists (evs ++ [Sent r]).
        split; [by rewrite app_assoc|].
        apply paced_intro; simpl; auto; [by split; [|eexists]|].
        by intros ? ? [= <- <-]. }
      destruct (resp_err _) as [e|].
      * destruct (Time.Before now d).
        -- inversion Hstep; subst. apply Hkeep.
        -- destruct (cancelWithError consul _ _) as [[[] w']|] eqn:Hcw;
             [|done].
           inversion Hstep; subst; clear Hstep. simpl.
           apply (cancelWithError_paced _ _ _ period) in Hcw;
             [|split; simpl; [done|by eexists]].
           destruct Hcw as (Hg' & Hs' & evs2 & Hh' & Hev2). simpl in *.
           split; [done|]. exists ((evs ++ [Sent r]) ++ evs2).
           split; [by rewrite Hh', !app_assoc|].
           apply paced_intro; simpl; rewrite ?Hs'; auto; [discriminate|].
           by apply Forall_app.
      * inversion Hstep; subst. apply Hkeep.
Qed.

Lemma exec_paced (acts : list action) :
  forall (sys sys' : system) (h evs : list event),
    paced sys evs ->
    history (sys_world sys) = h ++ evs ->
    exec consul acts sys = Some sys' ->
    session (cell (sys_world sys')) = session (cell (sys_world sys)) /\
    exists evs', history (sys_world sys') = h ++ evs' /\ paced sys' evs'.
Proof.
  induction acts as [|a acts IH]; intros sys sys' h evs Hp Hh Hex;
    simpl in Hex.
  - inversion Hex; subst. split; [done|]. by exists evs.
  - destruct (step consul a sys) as [sys1|] eqn:Hs; [|done].
    destruct (step_paced _ _ _ _ _ Hp Hh Hs) as (Hs1 & evs1 & Hh1 & Hp1).
    destruct (IH _ _ _ _ Hp1 Hh1 Hex) as (Hs2 & evs2 & Hh2 & Hp2).
    split; [congruence|]. by exists evs2.
Qed.

End Renewal.

(** ** [WithSession] *)

Section Creation.

Variable consul : agent.
Variable seconds : Z -> string.

Lemma resolve_client (session : Session) :
  client (resolve session) = Some (default DefaultClient (client session)).
Proof.
  unfold resolve.
  destruct (client session) as [c|] eqn:Hc; simpl;
    repeat match goal with |- context [if ?b then _ else _] => destruct b end;
    simpl; by rewrite ?Hc.
Qed.

Lemma WithSession_eq (now : Z) (ctx0 : Context) (session0 : Session)
    (h : list event) :
  WithSession consul seconds now ctx0 session0 (mkWorld tt h)
  = (let r := create_request seconds session0 in
     let resp := consul h r in
     Some (match resp_err resp with
           | Some e => ErrorCtx (errorContext ctx0 e)
           | None => newSessionCtx now ctx0
                       (set_ID (resp_ID resp) (resolve session0))
           end, mkWorld tt (h ++ [Sent r]))).
Proof.
  unfold WithSession, createSession, Put, mbind, mret, M_bind, M_ret.
  rewrite resolve_client. simpl. unfold create_request. cbv zeta.
  rewrite resolve_client. simpl.
  by destruct (resp_err _).
Qed.

Lemma wrap64_small (z : Z) :
  Time.MinInt64 <= z <= Time.MaxInt64 -> Time.wrap64 z = z.
Proof.
  unfold Time.MinInt64, Time.MaxInt64, Time.wrap64. intros H.
  rewrite Z.mod_small; lia.
Qed.

(** C3, as amended.  [WithSession] replaces an empty behavior by
    [release], a zero lock-delay by 15 seconds and a zero TTL by twice
    the (resolved) lock-delay, in [int64] arithmetic, and sends the
    resolved values with the create request, whose deadline is the
    resolved lock-delay.  Zero is the only value taken for "unset": the
    resolved lock-delay and TTL are positive when the configured ones
    are not negative and, for an unset TTL, the lock-delay is below
    2^62 nanoseconds. *)
Theorem resolve_defaults (session : Session) :
  let s := resolve session in
  let r := create_request seconds session in
  Behavior s = (if decide (Behavior session = "") then Release
                else Behavior session) /\
  LockDelay s = (if decide (LockDelay session = 0) then 15 * Time.Second
                 else LockDelay session) /\
  TTL s = (if decide (TTL session = 0) then Time.wrap64 (2 * LockDelay s)
           else TTL session) /\
  req_ctx r = WithTimeout CallerCtx (LockDelay s) /\
  req_send r = Some (mkConfig (Name session) (Behavior s) (LockDelay s)
                              (seconds (TTL s))) /\
  (0 <= LockDelay session -> 0 <= TTL session ->
   (TTL session = 0 -> LockDelay session < 2 ^ 62) ->
   0 < LockDelay s /\ 0 < TTL s /\
   (TTL session = 0 -> TTL s = 2 * LockDelay s)).
Proof.
  assert (HB : Behavior (resolve session)
               = if decide (Behavior session = "") then Release
                 else Behavior session).
  { unfold resolve. destruct session as [c n i b l t]. simpl.
    destruct b as [|a b]; simpl; destruct c; simpl;
      repeat match goal with |- context [if ?b then _ else _] => destruct b end;
      simpl; congruence. }
  assert (HL : LockDelay (resolve session)
               = if decide (LockDelay session = 0) then 15 * Time.Second
                 else LockDelay session).
  { unfold resolve. destruct session as [c n i b l t]. simpl.
    destruct (decide (l = 0)) as [->|Hl].
    - destruct c, b; simpl; destruct (t =? 0); reflexivity.
    - apply Z.eqb_neq in Hl.
      destruct c, b; simpl; rewrite Hl; simpl; destruct (t =? 0); reflexivity. }
  assert (HT : TTL (resolve session)
               = if decide (TTL session = 0)
                 then Time.wrap64 (2 * LockDelay (resolve session))
                 else TTL session).
  { rewrite HL. unfold resolve. destruct session as [c n i b l t]. simpl.
    destruct (decide (t = 0)) as [->|Ht].
    - destruct (decide (l = 0)) as [->|Hl].
      + destruct c, b; reflexivity.
      + apply Z.eqb_neq in Hl. destruct c, b; simpl; rewrite Hl; reflexivity.
    - apply Z.eqb_neq in Ht.
      destruct c, b; simpl; destruct (l =? 0); simpl; rewrite Ht; reflexivity. }
  assert (HN : Name (resolve session) = Name session).
  { unfold resolve. destruct session as [c n i b l t]. simpl.
    destruct c, b; simpl; destruct (l =? 0); simpl; destruct (t =? 0);
      reflexivity. }
  simpl. split; [exact HB|]. split; [exact HL|]. split; [exact HT|].
  split; [reflexivity|].
  split; [unfold create_request, config_of; simpl; by rewrite HN|].
  intros Hl Ht Hov. rewrite HT, HL. unfold Time.Second.
  destruct (decide (LockDelay session = 0)) as [Hl0|Hl0];
    destruct (decide (TTL session = 0)) as [Ht0|Ht0];
    rewrite ?wrap64_small;
    unfold Time.MinInt64, Time.MaxInt64; try specialize (Hov Ht0); lia.
Qed.

(** C6.  When the create request fails with [e], [WithSession] returns
    [errorContext(ctx, e)]: a context that is already done and whose
    error is [e].  Only the create request was sent, no goroutine was
    spawned, and no session context exists to be run. *)
Theorem WithSession_create_failure (now : Z) (ctx0 : Context)
    (session0 : Session) (h : list event) (e : error) :
  resp_err (consul h (create_request seconds session0)) = Some e ->
  exists d : Context,
    WithSession consul seconds now ctx0 session0 (mkWorld tt h)
    = Some (ErrorCtx d,
            mkWorld tt (h ++ [Sent (create_request seconds session0)])) /\
    d = errorContext ctx0 e /\
    ctx_Done d = true /\ ctx_Err d = Some e /\
    spawned (ErrorCtx d) = None /\
    boot consul seconds now ctx0 session0 h = None.
Proof.
  intros He. exists (errorContext ctx0 e).
  pose proof (WithSession_eq now ctx0 session0 h) as Heq.
  simpl in Heq. rewrite He in Heq.
  split; [exact Heq|]. repeat split.
  unfold boot. by rewrite Heq.
Qed.

Lemma boot_paced (now : Z) (ctx0 : Context) (session0 : Session)
    (h : list event) (sys0 : system) :
  boot consul seconds now ctx0 session0 h = Some sys0 ->
  exists evs, history (sys_world sys0) = h ++ evs /\ paced sys0 evs.
Proof.
  unfold boot. rewrite WithSession_eq. simpl.
  destruct (resp_err _); [done|]. simpl. intros [= <-]. simpl.
  eexists. split; [reflexivity|].
  apply paced_intro; simpl.
  - split; [done|]. simpl. rewrite resolve_client. by eexists.
  - discriminate.
  - by repeat constructor.
Qed.

End Creation.

(** ** Ticks *)

Section Ticks.

Variable consul : agent.

(** C2, as amended.  One tick at [now], for a context with its client
    set and its done channel closed exactly when its [Once] has fired.
    A renewal that succeeds moves the deadline to [now + TTL].  A
    renewal that fails before the deadline changes nothing: the cell is
    the same and so is the deadline.  A renewal that fails with [e] at
    or after the deadline makes the loop call [cancelWithError e] and
    return; the context is then done, and its error is [e] when it was
    still live, and the error recorded earlier when teardown had already
    run. *)
Theorem run_turn_renewal (s : sessionCtx) (h : list event) (c : Client)
    (timeout deadline now : Z) :
  client (session s) = Some c -> done s = once s ->
  let r := renew_request c timeout s in
  let w1 := mkWorld s (h ++ [Sent r]) in
  let result := run_turn consul timeout deadline (SelTick now) (mkWorld s h) in
  match resp_err (consul h r) with
  | None =>
      result = Some (Looping timeout (Time.Add now (TTL (session s))), w1)
  | Some e =>
      if Time.Before now deadline
      then result = Some (Looping timeout deadline, w1)
      else exists w2,
             result = Some (Returned, w2) /\
             cancelWithError consul (Some e) w1 = Some (tt, w2) /\
             Done (cell w2) = true /\
             Err (cell w2) = (if once s then Err s else Some e)
  end.
Proof.
  intros Hc Hg r w1 result. subst result.
  rewrite (run_turn_tick _ _ _ c) by done. fold r. cbv zeta. subst w1.
  destruct (resp_err (consul h r)) as [e|]; [|reflexivity].
  destruct (Time.Before now deadline); [reflexivity|].
  destruct (once s) eqn:Ho.
  - exists (mkWorld s (h ++ [Sent r])).
    rewrite (cancelWithError_fired consul (mkWorld s (h ++ [Sent r]))
               (Some e) Ho).
    split; [reflexivity|]. split; [reflexivity|].
    split; [exact Hg|reflexivity].
  - exists (mkWorld (torn e s)
              ((h ++ [Sent r]) ++
               [Stored e; Closed; Sent (destroy_request c s)])).
    rewrite (cancelWithError_live _ _ _ c) by congruence.
    by repeat split.
Qed.

(** C9.  A renewal that succeeds never cancels, wherever [now] lies
    with respect to the deadline, and so also at or after it: the loop
    goes on with the deadline [now + TTL], the cell is untouched (a live
    context stays live) and the renewal request is the only event. *)
Theorem run_turn_late_success (s : sessionCtx) (h : list event) (c : Client)
    (timeout deadline now : Z) :
  client (session s) = Some c ->
  resp_err (consul h (renew_request c timeout s)) = None ->
  exists w1,
    run_turn consul timeout deadline (SelTick now) (mkWorld s h)
    = Some (Looping timeout (Time.Add now (TTL (session s))), w1) /\
    cell w1 = s /\
    history w1 = h ++ [Sent (renew_request c timeout s)] /\
    teardowns (history w1) = teardowns h.
Proof.
  intros Hc Hok. eexists.
  rewrite (run_turn_tick _ _ _ c) by done. cbv zeta. rewrite Hok.
  split; [reflexivity|]. simpl. repeat split.
  rewrite teardowns_app. simpl. apply app_nil_r.
Qed.

(** C4.  In every state reached from a successful [WithSession], the
    period of the loop is [TTL / 3], and every renewal request sent
    since then went out under [context.WithTimeout(s, TTL / 3)]: its
    deadline is the period and its parent is the session context, so
    that its own Done channel is closed as soon as [s.done] is. *)
Theorem renewal_period (seconds : Z -> string) (now : Z) (ctx0 : Context)
    (session0 : Session) (h : list event) (acts : list action)
    (sys0 sys : system) :
  boot consul seconds now ctx0 session0 h = Some sys0 ->
  exec consul acts sys0 = Some sys ->
  let s := cell (sys_world sys) in
  let period := Time.div (TTL (session s)) 3 in
  (forall timeout d : Z,
     sys_routine sys = Looping timeout d -> timeout = period /\ 0 < period) /\
  exists evs,
    history (sys_world sys) = h ++ evs /\
    forall r : request,
      In (Sent r) evs -> is_renewal (Sent r) = true ->
      req_ctx r = WithTimeout SessionCtx period /\
      forall (s' : sessionCtx) (fired : bool),
        Done s' = true -> op_done s' fired (req_ctx r) = true.
Proof.
  intros Hb Hex.
  destruct (boot_paced _ _ _ _ _ _ _ Hb) as (evs0 & Hh0 & Hp0).
  destruct (exec_paced _ _ _ _ _ _ Hp0 Hh0 Hex) as (_ & evs & Hh & Hp).
  destruct Hp as (_ & Ht & Hev). simpl. split; [exact Ht|].
  exists evs. split; [exact Hh|]. intros r Hin Hr.
  rewrite Forall_forall in Hev.
  assert (Hk := Hev (Sent r)). simpl in Hk. rewrite Hk; auto.
  - split; [reflexivity|]. intros s' fired Hd. unfold op_done. simpl.
    rewrite Hd. by destruct fired.
  - by apply list_elem_of_In.
Qed.

End Ticks.

(** C10.  A session context answers [Done], [Err] and
    [Value(SessionKey)] from its own cell.  [Deadline] is the parent's,
    and so is [Value] at every other key; teardown, which closes the
    done channel, leaves both as they were. *)
Theorem sessionCtx_delegates (consul : agent) (s : sessionCtx)
    (h : list event) (k : any) :
  Deadline s = ctx_Deadline (ctx s) /\
  Value s SessionKey = VSession (session s) /\
  (k <> SessionKey -> Value s k = ctx_Value (ctx s) k) /\
  forall (e : option error) (w' : world sessionCtx),
    once s = false ->
    cancelWithError consul e (mkWorld s h) = Some (tt, w') ->
    Done (cell w') = true /\
    Deadline (cell w') = ctx_Deadline (ctx s) /\
    (k <> SessionKey -> Value (cell w') k = ctx_Value (ctx s) k).
Proof.
  split; [reflexivity|]. split; [reflexivity|].
  assert (Hv : forall s0, k <> SessionKey ->
                          Value s0 k = ctx_Value (ctx s0) k).
  { intros s0 Hk. unfold Value. by destruct (decide (k = SessionKey)). }
  split; [apply Hv|].
  intros e w' Ho H. apply cancelWithError_cases in H. simpl in H.
  destruct H as [[Ho' _]|(_ & _ & e0 & c & _ & _ & ->)]; [congruence|].
  simpl. split; [reflexivity|]. split; [reflexivity|].
  intros Hk. by rewrite Hv.
Qed.

(** ** Instances *)

Lemma resolve_defaults_witness :
  0 < LockDelay (resolve unset) /\ 0 < TTL (resolve unset) /\
  (TTL unset = 0 -> TTL (resolve unset) = 2 * LockDelay (resolve unset)).
Proof.
  destruct (resolve_defaults thirty_seconds unset) as (_ & _ & _ & _ & _ & H).
  apply H; simpl; lia.
Defined.

(** A negative lock-delay is not zero, so it is kept, and the TTL that
    defaults to twice its value is negative as well. *)
Lemma resolve_keeps_negative :
  ~ (forall session : Session,
       Time.int64 (LockDelay session) -> Time.int64 (TTL session) ->
       0 < LockDelay (resolve session) /\ 0 < TTL (resolve session)).
Proof.
  intros H. destruct (H hasty) as [H1 _].
  - unfold Time.int64, Time.MinInt64, Time.MaxInt64. simpl. lia.
  - unfold Time.int64, Time.MinInt64, Time.MaxInt64. simpl. lia.
  - vm_compute in H1. discriminate.
Qed.

Example resolve_hasty :
  LockDelay (resolve hasty) = -1000000000 /\
  TTL (resolve hasty) = -2000000000 /\
  req_ctx (create_request thirty_seconds hasty)
  = WithTimeout CallerCtx (-1000000000).
Proof. by vm_compute. Qed.

(** Twice the smallest [int64] wraps around to zero. *)
Example resolve_extreme : TTL (resolve extreme) = 0.
Proof. by vm_compute. Qed.

Lemma WithSession_create_failure_witness :
  exists d : Context,
    WithSession unreachable thirty_seconds 0 background unset (mkWorld tt [])
    = Some (ErrorCtx d,
            mkWorld tt ([] ++ [Sent (create_request thirty_seconds unset)])) /\
    d = errorContext background (errorString "connection refused") /\
    ctx_Done d = true /\
    ctx_Err d = Some (errorString "connection refused") /\
    spawned (ErrorCtx d) = None /\
    boot unreachable thirty_seconds 0 background unset [] = None.
Proof.
  apply (WithSession_create_failure unreachable thirty_seconds 0 background
           unset [] (errorString "connection refused")).
  reflexivity.
Defined.

Lemma run_turn_renewal_witness :
  exists w2,
    run_turn lapsing 10000000000 30000000000 (SelTick 30000000000)
             (mkWorld live_cell [])
    = Some (Returned, w2) /\
    cancelWithError lapsing (Some (errorString "renew failed"))
      (mkWorld live_cell
         ([] ++ [Sent (renew_request DefaultClient 10000000000 live_cell)]))
    = Some (tt, w2) /\
    Done (cell w2) = true /\
    Err (cell w2) = Some (errorString "renew failed").
Proof.
  exact (run_turn_renewal lapsing live_cell [] DefaultClient 10000000000
           30000000000 30000000000 eq_refl eq_refl).
Defined.

Lemma cancelled_system_reachable :
  reachable lapsing thirty_seconds cancelled_system.
Proof.
  exists 0, background, unset, [], [Start; Cancel], booted_system.
  split; reflexivity.
Qed.

(** The caller cancels, and the [select] then takes a tick that was
    already waiting: the renewal fails past the deadline, the loop
    returns, and the error of the context is still [Canceled]. *)
Lemma late_tick_keeps_first_cause :
  ~ (forall (consul : agent) (seconds : Z -> string) (sys sys' : system)
            (timeout deadline now : Z) (c : Client) (e : error),
       reachable consul seconds sys ->
       sys_routine sys = Looping timeout deadline ->
       client (session (cell (sys_world sys))) = Some c ->
       resp_err (consul (history (sys_world sys))
                   (renew_request c timeout (cell (sys_world sys)))) = Some e ->
       Time.Before now deadline = false ->
       step consul (Select (SelTick now)) sys = Some sys' ->
       sys_routine sys' = Returned /\ Err (cell (sys_world sys')) = Some e).
Proof.
  intros H.
  destruct (step lapsing (Select (SelTick 30000000000)) cancelled_system)
    as [sys'|] eqn:Hstep; [|vm_compute in Hstep; discriminate].
  destruct (H lapsing thirty_seconds cancelled_system sys' 10000000000
              30000000000 30000000000 DefaultClient
              (errorString "renew failed") cancelled_system_reachable
              eq_refl eq_refl eq_refl eq_refl Hstep) as [_ He].
  vm_compute in Hstep. injection Hstep as <-.
  vm_compute in He. discriminate.
Qed.

Example late_tick_trace :
  exists sys',
    step lapsing (Select (SelTick 30000000000)) cancelled_system = Some sys' /\
    sys_routine sys' = Returned /\
    Err (cell (sys_world sys')) = Some Canceled /\
    destroys (history (sys_world sys')) = 1%nat.
Proof. eexists. split; [vm_compute; reflexivity|]. by vm_compute. Qed.

Lemma run_turn_late_success_witness :
  exists w1,
    run_turn granting 10000000000 30000000000 (SelTick 40000000000)
             (mkWorld live_cell [])
    = Some (Looping 10000000000
              (Time.Add 40000000000 (TTL (session live_cell))), w1) /\
    cell w1 = live_cell /\
    history w1
    = [] ++ [Sent (renew_request DefaultClient 10000000000 live_cell)] /\
    teardowns (history w1) = teardowns [].
Proof.
  exact (run_turn_late_success granting live_cell [] DefaultClient
           10000000000 30000000000 40000000000 eq_refl eq_refl).
Defined.

Lemma renewal_period_witness :
  (forall timeout d : Z,
     sys_routine ticked_system = Looping timeout d ->
     timeout = Time.div (TTL (session (cell (sys_world ticked_system)))) 3 /\
     0 < Time.div (TTL (session (cell (sys_world ticked_system)))) 3) /\
  exists evs,
    history (sys_world ticked_system) = [] ++ evs /\
    forall r : request,
      In (Sent r) evs -> is_renewal (Sent r) = true ->
      req_ctx r
      = WithTimeout SessionCtx
          (Time.div (TTL (session (cell (sys_world ticked_system)))) 3) /\
      forall (s' : sessionCtx) (fired : bool),
        Done s' = true -> op_done s' fired (req_ctx r) = true.
Proof.
  exact (renewal_period granting thirty_seconds 0 background unset []
           [Start; Select (SelTick 10000000000)] booted_system ticked_system
           eq_refl eq_refl).
Defined.

Lemma sessionCtx_delegates_witness :
  Deadline bounded_cell = Some 90000000000 /\
  Value bounded_cell (Str "trace-id") = VAny (Int 7) /\
  Done (torn Canceled bounded_cell) = true /\
  Deadline (torn Canceled bounded_cell) = Some 90000000000 /\
  Value (torn Canceled bounded_cell) (Str "trace-id") = VAny (Int 7).
Proof.
  destruct (sessionCtx_delegates granting bounded_cell [] (Str "trace-id"))
    as (Hd & _ & Hv & Ht).
  destruct (Ht (Some Canceled)
              (mkWorld (torn Canceled bounded_cell)
                 [Stored Canceled; Closed;
                  Sent (destroy_request DefaultClient bounded_cell)])
              eq_refl eq_refl) as (Hd' & Hl' & Hv').
  split; [exact Hd|]. split; [apply Hv; discriminate|].
  split; [exact Hd'|]. split; [exact Hl'|apply Hv'; discriminate].
Defined.

(** ** The session context over its whole life *)

Section Life.

Variable consul : agent.

Lemma exec_app (acts1 acts2 : list action) : forall sys : system,
  exec consul (acts1 ++ acts2) sys
  = match exec consul acts1 sys with
    | Some sys1 => exec consul acts2 sys1
    | None => None
    end.
Proof.
  induction acts1 as [|a acts1 IH]; intros sys; [reflexivity|]. simpl.
  destruct (step consul a sys); [apply IH|reflexivity].
Qed.

Lemma own_event_session (c : Client) (s s' : sessionCtx) (ev : event) :
  session s' = session s -> own_event c s ev -> own_event c s' ev.
Proof.
  intros Hs. destruct ev as [| |r]; simpl; auto.
  unfold renew_request, destroy_request, id. by rewrite Hs.
Qed.

Lemma cancelWithError_sound (c : Client) (w w' : world sessionCtx)
    (e : option error) :
  done (cell w) = once (cell w) ->
  client (session (cell w)) = Some c ->
  (done (cell w) = true <-> is_Some (err (cell w))) ->
  cancelWithError consul e w = Some (tt, w') ->
  done (cell w') = true /\ once (cell w') = true /\
  is_Some (err (cell w')) /\
  session (cell w') = session (cell w) /\
  exists new, history w' = history w ++ new /\
              Forall (own_event c (cell w)) new.
Proof.
  intros Hg Hc He H. apply cancelWithError_cases in H.
  destruct H as [[Ho ->]|(Ho & Hd & e0 & c' & -> & Hc' & ->)].
  - rewrite Ho in Hg. split; [done|]. split; [done|].
    split; [by apply He|]. split; [done|].
    exists []. by rewrite app_nil_r.
  - simpl. split; [done|]. split; [done|]. split; [by eexists|].
    split; [done|]. eexists. split; [reflexivity|].
    constructor; [done|]. constructor; [done|]. constructor; [|done].
    simpl. right. congruence.
Qed.

Lemma step_sound (c : Client) (a : action) (sys sys' : system) :
  sound c sys -> step consul a sys = Some sys' ->
  sound c sys' /\
  session (cell (sys_world sys')) = session (cell (sys_world sys)) /\
  exists new,
    history (sys_world sys') = history (sys_world sys) ++ new /\
    Forall (own_event c (cell (sys_world sys))) new.
Proof.
  destruct sys as [[s h] t]. unfold sound at 1. simpl.
  intros (Hg & Hc & He & Hret & Hloop) Hstep.
  assert (Hnone : exists new : list event,
            h = h ++ new /\ Forall (own_event c s) new)
    by (exists []; by rewrite app_nil_r).
  destruct a as [|e| |sel]; simpl in Hstep.
  - destruct (cancel consul _) as [[[] w']|] eqn:Hcw; [|done].
    inversion Hstep; subst; clear Hstep.
    destruct (cancelWithError_sound c (mkWorld s h) w' _ Hg Hc He Hcw)
      as (Hd' & Ho' & He' & Hs' & Hnew). simpl in *.
    split; [|by split].
    unfold sound. simpl. rewrite Hs'.
    split; [congruence|]. split; [done|]. split; [by split|].
    split; [done|]. exact Hloop.
  - destruct (ctx_Done (ctx s)); [done|]. inversion Hstep; subst. simpl.
    split; [|by split]. by unfold sound.
  - destruct t as [d|? ?|]; try done.
    unfold run_enter, NewTicker, self, mbind, mret, M_bind, M_ret in Hstep.
    simpl in Hstep.
    destruct (Time.div (TTL (session s)) 3 <=? 0); simpl in Hstep; [done|].
    inversion Hstep; subst. simpl. split; [|by split].
    unfold sound. simpl. repeat split; try apply He; auto; try discriminate.
    try by intros ? ? [= <- <-].
  - destruct t as [d|timeout d|]; try done.
    destruct (ready s sel) eqn:Hr; [|done].
    rewrite (Hloop timeout d eq_refl) in *.
    destruct sel as [| |now].
    + inversion Hstep; subst. simpl in *. split; [|by split].
      unfold sound. simpl. repeat split; try apply He; auto; discriminate.
    + unfold run_turn, self, mbind, mret, M_bind, M_ret in Hstep.
      simpl in Hstep.
      destruct (cancelWithError consul _ _) as [[[] w']|] eqn:Hcw; [|done].
      inversion Hstep; subst; clear Hstep.
      destruct (cancelWithError_sound c (mkWorld s h) w' _ Hg Hc He Hcw)
        as (Hd' & Ho' & He' & Hs' & Hnew). simpl in *.
      split; [|by split].
      unfold sound. simpl. rewrite Hs'.
      split; [congruence|]. split; [done|]. split; [by split|].
      split; [done|]. discriminate.
    + rewrite (run_turn_tick _ _ _ c) in Hstep by done. simpl in Hstep.
      set (r := renew_request c (Time.div (TTL (session s)) 3) s) in *.
      assert (Hkeep : forall d',
        sound c (mkSystem (mkWorld s (h ++ [Sent r]))
                   (Looping (Time.div (TTL (session s)) 3) d')) /\
        session s = session s /\
        exists new, h ++ [Sent r] = h ++ new /\ Forall (own_event c s) new).
      { intros d'. split; [|split; [done|]].
        - unfold sound. simpl.
          repeat split; try apply He; auto; try discriminate.
          try by intros ? ? [= <- <-].
        - exists [Sent r]. split; [done|]. constructor; [by left|done]. }
      destruct (resp_err _) as [e|].
      * destruct (Time.Before now d).
        -- inversion Hstep; subst. apply Hkeep.
        -- destruct (cancelWithError consul _ _) as [[[] w']|] eqn:Hcw;
             [|done].
           inversion Hstep; subst; clear Hstep.
           destruct (cancelWithError_sound c (mkWorld s (h ++ [Sent r])) w'
                       _ Hg Hc He Hcw)
             as (Hd' & Ho' & He' & Hs' & new & Hh' & Hnew). simpl in *.
           split; [|split; [done|]].
           ++ unfold sound. simpl. rewrite Hs'.
              split; [congruence|]. split; [done|]. split; [by split|].
              split; [done|]. discriminate.
           ++ exists (Sent r :: new). rewrite Hh', <- app_assoc.
              split; [done|]. constructor; [by left|done].
      * inversion Hstep; subst. apply Hkeep.
Qed.

Lemma exec_sound (c : Client) (acts : list action) :
  forall sys sys' : system,
    sound c sys -> exec consul acts sys = Some sys' ->
    sound c sys' /\
    session (cell (sys_world sys')) = session (cell (sys_world sys)) /\
    exists new,
      history (sys_world sys') = history (sys_world sys) ++ new /\
      Forall (own_event c (cell (sys_world sys))) new.
Proof.
  induction acts as [|a acts IH]; intros sys sys' Hs Hex; simpl in Hex.
  - inversion Hex; subst. split; [done|]. split; [done|].
    exists []. by rewrite app_nil_r.
  - destruct (step consul a sys) as [sys1|] eqn:Hstep; [|done].
    destruct (step_sound c a sys sys1 Hs Hstep)
      as (Hs1 & Hse1 & new1 & Hh1 & Hn1).
    destruct (IH sys1 sys' Hs1 Hex) as (Hs2 & Hse2 & new2 & Hh2 & Hn2).
    split; [done|]. split; [congruence|].
    exists (new1 ++ new2). rewrite Hh2, Hh1, app_assoc. split; [done|].
    apply Forall_app. split; [done|].
    eapply Forall_impl; [exact Hn2|].
    intros ev. by apply own_event_session.
Qed.

Lemma boot_sound (seconds : Z -> string) (now : Z) (ctx0 : Context)
    (session0 : Session) (h : list event) (sys0 : system) :
  boot consul seconds now ctx0 session0 h = Some sys0 ->
  let sid := resp_ID (consul h (create_request seconds session0)) in
  sound (default DefaultClient (client session0)) sys0 /\
  session (cell (sys_world sys0)) = set_ID sid (resolve session0) /\
  history (sys_world sys0) = h ++ [Sent (create_request seconds session0)] /\
  err (cell (sys_world sys0)) = None /\ done (cell (sys_world sys0)) = false.
Proof.
  unfold boot. rewrite WithSession_eq. simpl.
  destruct (resp_err _); [done|]. simpl. intros [= <-]. simpl.
  split; [|by repeat split].
  unfold sound. simpl. rewrite resolve_client.
  split; [done|]. split; [done|].
  split; [split; [done|by intros [? ?]]|]. split; discriminate.
Qed.


(** X2.  Every request a session context sends after the create
    request is a PUT without body, through the client the session was
    resolved to, to the renew path or to the destroy path of the
    session identifier the agent returned. *)
Theorem requests_address_session (seconds : Z -> string) (now : Z)
    (ctx0 : Context) (session0 : Session) (h : list event)
    (acts : list action) (sys0 sys : system) :
  boot consul seconds now ctx0 session0 h = Some sys0 ->
  exec consul acts sys0 = Some sys ->
  let sid := resp_ID (consul h (create_request seconds session0)) in
  exists evs,
    history (sys_world sys)
    = h ++ Sent (create_request seconds session0) :: evs /\
    forall r : request,
      In (Sent r) evs ->
      req_client r = default DefaultClient (client session0) /\
      req_method r = "PUT" /\ req_send r = None /\
      (req_path r = "/v1/session/renew/" +:+ sid \/
       req_path r = "/v1/session/destroy/" +:+ sid).
Proof.
  intros Hb Hex sid.
  destruct (boot_sound seconds now ctx0 session0 h sys0 Hb)
    as (Hs0 & Hse0 & Hh0 & _).
  destruct (exec_sound _ acts sys0 sys Hs0 Hex) as (_ & _ & evs & Hh & Hev).
  exists evs. split; [by rewrite Hh, Hh0, <- app_assoc|].
  intros r Hin. rewrite Forall_forall in Hev.
  assert (Hr := Hev (Sent r)). simpl in Hr.
  destruct Hr as [->| ->]; [by apply list_elem_of_In| |];
    unfold renew_request, destroy_request, id; simpl; rewrite Hse0; simpl;
    repeat split; auto.
Qed.

(** X3.  [contextSession] on the context of a successful [WithSession]
    returns, at any later moment and also after teardown, the session
    with its defaults resolved and the identifier the agent returned. *)
Theorem contextSession_constant (seconds : Z -> string) (now : Z)
    (ctx0 : Context) (session0 : Session) (h : list event)
    (acts : list action) (sys0 sys : system) :
  boot consul seconds now ctx0 session0 h = Some sys0 ->
  exec consul acts sys0 = Some sys ->
  contextSession (Value (cell (sys_world sys)))
  = Some (set_ID (resp_ID (consul h (create_request seconds session0)))
                 (resolve session0)).
Proof.
  intros Hb Hex.
  destruct (boot_sound seconds now ctx0 session0 h sys0 Hb)
    as (Hs0 & Hse0 & _).
  destruct (exec_sound _ acts sys0 sys Hs0 Hex) as (_ & Hse & _).
  unfold contextSession, Value.
  destruct (decide (SessionKey = SessionKey)); [|done]. congruence.
Qed.

(** X4.  While the parent context is live the loop cannot take the
    parent case.  Once the parent ends with [e], the loop taking that
    case tears a live session context down with the parent's error:
    [Err] is [e], one destroy request is sent and the loop returns. *)
Theorem parent_end_propagates (s : sessionCtx) (h : list event) (c : Client)
    (timeout deadline : Z) (e : error) :
  once s = false -> done s = false -> client (session s) = Some c ->
  ctx_Done (ctx s) = false ->
  let sys := mkSystem (mkWorld s h) (Looping timeout deadline) in
  step consul (Select SelCtxDone) sys = None /\
  exec consul [ParentEnd e; Select SelCtxDone] sys
  = Some (mkSystem
            (mkWorld (torn e (end_parent e s))
               (h ++ [Stored e; Closed; Sent (destroy_request c s)]))
            Returned).
Proof.
  intros Ho Hd Hc Hp sys. subst sys. simpl. rewrite Hp. split; [done|].
  unfold run_turn, self, mbind, mret, M_bind, M_ret. simpl.
  rewrite (cancelWithError_live _ _ _ c) by done. reflexivity.
Qed.

Lemma tick_absorbed (s : sessionCtx) (h : list event) (c : Client)
    (timeout deadline now : Z) :
  client (session s) = Some c ->
  is_Some (resp_err (consul h (renew_request c timeout s))) ->
  now < deadline ->
  step consul (Select (SelTick now))
    (mkSystem (mkWorld s h) (Looping timeout deadline))
  = Some (mkSystem (mkWorld s (h ++ [Sent (renew_request c timeout s)]))
            (Looping timeout deadline)).
Proof.
  intros Hc [e He] Hlt. unfold step. cbn [sys_world sys_routine cell ready].
  rewrite (run_turn_tick _ _ _ c) by done. cbv zeta. rewrite He.
  unfold Time.Before. apply Z.ltb_lt in Hlt. by rewrite Hlt.
Qed.

(** X5.  Renewals that fail before the deadline are absorbed, however
    many there are: the context is untouched, the deadline stays, and
    each tick has sent one more renewal request and nothing else. *)
Theorem failures_before_deadline (s : sessionCtx) (c : Client)
    (timeout deadline : Z) (nows : list Z) : forall h : list event,
  client (session s) = Some c ->
  (forall h', is_Some (resp_err (consul h' (renew_request c timeout s)))) ->
  Forall (fun now => now < deadline) nows ->
  exec consul (ticks nows) (mkSystem (mkWorld s h) (Looping timeout deadline))
  = Some (mkSystem
            (mkWorld s
               (h ++ replicate (length nows)
                       (Sent (renew_request c timeout s))))
            (Looping timeout deadline)).
Proof.
  induction nows as [|now nows IH]; intros h Hc Hfail Hall.
  - simpl. by rewrite app_nil_r.
  - inversion Hall as [|? ? Hnow Hrest]; subst.
    change (ticks (now :: nows)) with (Select (SelTick now) :: ticks nows).
    cbn [exec]. rewrite (tick_absorbed s h c) by auto.
    rewrite IH by auto. simpl. by rewrite <- app_assoc.
Qed.

(** X6.  After any number of absorbed failures, the first failing
    renewal at or after the deadline ends a live session context: the
    loop returns, [Err] is the failure of that last renewal, and the
    history holds one renewal request per tick followed by the store,
    the close and one destroy request. *)
Theorem failure_at_deadline (s : sessionCtx) (h : list event) (c : Client)
    (timeout deadline late : Z) (nows : list Z) :
  once s = false -> done s = false -> client (session s) = Some c ->
  (forall h', is_Some (resp_err (consul h' (renew_request c timeout s)))) ->
  Forall (fun now => now < deadline) nows ->
  deadline <= late ->
  let r := renew_request c timeout s in
  exists e : error,
    resp_err (consul (h ++ replicate (length nows) (Sent r)) r) = Some e /\
    exec consul (ticks nows ++ [Select (SelTick late)])
      (mkSystem (mkWorld s h) (Looping timeout deadline))
    = Some (mkSystem
              (mkWorld (torn e s)
                 (h ++ replicate (S (length nows)) (Sent r)
                    ++ [Stored e; Closed; Sent (destroy_request c s)]))
              Returned).
Proof.
  intros Ho Hd Hc Hfail Hall Hlate r.
  destruct (Hfail (h ++ replicate (length nows) (Sent r))) as [e He].
  fold r in He. exists e. split; [exact He|].
  rewrite exec_app, (failures_before_deadline s c timeout deadline nows h)
    by auto.
  cbn [exec step sys_world sys_routine ready cell].
  rewrite (run_turn_tick _ _ _ c) by done. cbv zeta. fold r. rewrite He.
  unfold Time.Before. apply Z.ltb_ge in Hlate. rewrite Hlate.
  rewrite (cancelWithError_live _ _ _ c) by done. simpl.
  do 3 f_equal. rewrite <- !app_assoc. f_equal.
  rewrite (app_assoc _ [Sent r]), <- replicate_S_end. reflexivity.
Qed.



End Life.


Lemma requests_address_session_witness :
  exists evs,
    history (sys_world cancelled_system)
    = [] ++ Sent (create_request thirty_seconds unset) :: evs /\
    forall r : request,
      In (Sent r) evs ->
      req_client r = default DefaultClient (client unset) /\
      req_method r = "PUT" /\ req_send r = None /\
      (req_path r
       = "/v1/session/renew/"
         +:+ resp_ID (lapsing [] (create_request thirty_seconds unset)) \/
       req_path r
       = "/v1/session/destroy/"
         +:+ resp_ID (lapsing [] (create_request thirty_seconds unset))).
Proof.
  exact (requests_address_session lapsing thirty_seconds 0 background unset
           [] [Start; Cancel] booted_system cancelled_system
           eq_refl eq_refl).
Defined.

Lemma contextSession_constant_witness :
  contextSession (Value (cell (sys_world cancelled_system)))
  = Some (set_ID "sid-1" (resolve unset)).
Proof.
  exact (contextSession_constant lapsing thirty_seconds 0 background unset
           [] [Start; Cancel] booted_system cancelled_system
           eq_refl eq_refl).
Defined.

Lemma parent_end_propagates_witness :
  step granting (Select SelCtxDone)
    (mkSystem (mkWorld live_cell []) (Looping 10000000000 30000000000))
  = None /\
  exec granting [ParentEnd DeadlineExceeded; Select SelCtxDone]
    (mkSystem (mkWorld live_cell []) (Looping 10000000000 30000000000))
  = Some (mkSystem
            (mkWorld (torn DeadlineExceeded
                        (end_parent DeadlineExceeded live_cell))
               ([] ++ [Stored DeadlineExceeded; Closed;
                       Sent (destroy_request DefaultClient live_cell)]))
            Returned).
Proof.
  exact (parent_end_propagates granting live_cell [] DefaultClient
           10000000000 30000000000 DeadlineExceeded
           eq_refl eq_refl eq_refl eq_refl).
Defined.

Lemma lapsing_fails (h : list event) (timeout : Z) :
  is_Some
    (resp_err (lapsing h (renew_request DefaultClient timeout live_cell))).
Proof. by eexists. Qed.

Lemma failures_before_deadline_witness :
  exec lapsing (ticks [10000000000; 20000000000])
    (mkSystem (mkWorld live_cell []) (Looping 10000000000 30000000000))
  = Some (mkSystem
            (mkWorld live_cell
               ([] ++ replicate 2
                        (Sent (renew_request DefaultClient 10000000000
                                 live_cell))))
            (Looping 10000000000 30000000000)).
Proof.
  apply (failures_before_deadline lapsing live_cell DefaultClient
           10000000000 30000000000 [10000000000; 20000000000] []).
  - reflexivity.
  - intros h'. apply lapsing_fails.
  - repeat constructor.
Defined.

Lemma failure_at_deadline_witness :
  exists e : error,
    resp_err
      (lapsing
         ([] ++ replicate 2
                  (Sent (renew_request DefaultClient 10000000000 live_cell)))
         (renew_request DefaultClient 10000000000 live_cell))
    = Some e /\
    exec lapsing
      (ticks [10000000000; 20000000000] ++ [Select (SelTick 30000000000)])
      (mkSystem (mkWorld live_cell []) (Looping 10000000000 30000000000))
    = Some (mkSystem
              (mkWorld (torn e live_cell)
                 ([] ++ replicate 3
                          (Sent (renew_request DefaultClient 10000000000
                                   live_cell))
                    ++ [Stored e; Closed;
                        Sent (destroy_request DefaultClient live_cell)]))
              Returned).
Proof.
  apply (failure_at_deadline lapsing live_cell [] DefaultClient
           10000000000 30000000000 30000000000
           [10000000000; 20000000000]).
  - reflexivity.
  - reflexivity.
  - reflexivity.
  - intros h'. apply lapsing_fails.
  - repeat constructor.
  - lia.
Defined.


(** X18.  The goroutine of a new session context needs a period of at
    least one nanosecond: with a resolved TTL under 3 ns, negative ones
    included, [time.NewTicker] panics when the goroutine starts; from
    3 ns on it reaches the head of its loop with period [TTL / 3] and
    deadline [now + TTL]. *)
Theorem Start_needs_a_period (consul : agent) (seconds : Z -> string)
    (now : Z) (ctx0 : Context) (session0 : Session) (h : list event)
    (sys0 : system) :
  boot consul seconds now ctx0 session0 h = Some sys0 ->
  let T := TTL (resolve session0) in
  (T < 3 -> step consul Start sys0 = None) /\
  (3 <= T ->
   step consul Start sys0
   = Some (mkSystem (sys_world sys0)
             (Looping (Time.div T 3) (Time.Add now T)))).
Proof.
  unfold boot. rewrite WithSession_eq. simpl.
  destruct (resp_err _); [done|]. simpl. intros [= <-]. simpl.
  unfold run_enter, NewTicker, self, mbind, mret, M_bind, M_ret. simpl.
  unfold Time.div. split.
  - intros HT.
    assert (Hq : TTL (resolve session0) ÷ 3 <= 2 ÷ 3)
      by (apply Z.quot_le_mono; lia).
    change (2 ÷ 3) with 0 in Hq. apply Z.leb_le in Hq. by rewrite Hq.
  - intros HT.
    assert (Hq : 3 ÷ 3 <= TTL (resolve session0) ÷ 3)
      by (apply Z.quot_le_mono; lia).
    change (3 ÷ 3) with 1 in Hq.
    assert (Hl : (TTL (resolve session0) ÷ 3 <=? 0) = false)
      by (apply Z.leb_gt; lia).
    by rewrite Hl.
Qed.

Lemma Start_needs_a_period_witness :
  step granting Start hasty_system = None /\
  step granting Start booted_system
  = Some (mkSystem (sys_world booted_system)
            (Looping (Time.div (TTL (resolve unset)) 3)
                     (Time.Add 0 (TTL (resolve unset))))).
Proof.
  split.
  - destruct (Start_needs_a_period granting thirty_seconds 0 background
                hasty [] hasty_system eq_refl) as [H _].
    apply H. by vm_compute.
  - destruct (Start_needs_a_period granting thirty_seconds 0 background
                unset [] booted_system eq_refl) as [_ H].
    apply H. by vm_compute.
Defined.

(** ** [duration] *)

(** X8.  What [MarshalJSON] writes starts with a quote, so
    [UnmarshalJSON] reads it back as a quoted duration and never as a
    bare number of seconds (neither [ParseFloat] nor the conversion to
    [int64] plays a part).  When the JSON decoder returns the text
    between the quotes and [ParseDuration] inverts [Duration.String] at
    [d], the round trip gives [d] back. *)
Theorem UnmarshalJSON_MarshalJSON (Duration_String : Z -> string)
    (ParseDuration : string -> Z + error)
    (ParseFloat : string -> float + error)
    (json_Unmarshal : string -> string + error) (to_int64 : float -> Z)
    (d : Z) :
  let text := String quote (Duration_String d +:+ String quote EmptyString) in
  json_Unmarshal text = inl (Duration_String d) ->
  ParseDuration (Duration_String d) = inl d ->
  MarshalJSON Duration_String d = inl text /\
  UnmarshalJSON ParseDuration ParseFloat json_Unmarshal to_int64 text
  = inl d.
Proof.
  intros text Hj Hp. split; [reflexivity|].
  unfold UnmarshalJSON. subst text. cbn [negb].
  rewrite Ascii.eqb_refl. cbn [negb]. by rewrite Hj, Hp.
Qed.

Lemma UnmarshalJSON_MarshalJSON_witness :
  MarshalJSON sample_Duration_String 15000000000
  = inl (String quote ("15s" +:+ String quote EmptyString)) /\
  UnmarshalJSON sample_ParseDuration sample_ParseFloat sample_json_Unmarshal
    sample_to_int64 (String quote ("15s" +:+ String quote EmptyString))
  = inl 15000000000.
Proof.
  exact (UnmarshalJSON_MarshalJSON sample_Duration_String
           sample_ParseDuration sample_ParseFloat sample_json_Unmarshal
           sample_to_int64 15000000000 eq_refl eq_refl).
Defined.

(** ** Balancing *)

Import Balance.

Lemma Balancer_induction (P : Balancer -> Prop) :
  (forall offset, P (RoundRobin offset)) ->
  (forall tags, P (PreferTags tags)) ->
  (forall bs, Forall P bs -> P (MultiBalancer bs)) ->
  P Shuffler ->
  (forall WeightOf, P (WeightedShuffler WeightOf)) ->
  forall b, P b.
Proof.
  intros Hr Hp Hm Hs Hw. fix IH 1. intros [offset|tags|bs| |WeightOf].
  - apply Hr.
  - apply Hp.
  - apply Hm. induction bs as [|b bs IHbs]; constructor; [apply IH|apply IHbs].
  - apply Hs.
  - apply Hw.
Qed.

Lemma Balance_MultiBalancer (name : string) (bs : list Balancer)
    (E : list Endpoint) (r : Rand) :
  Balance (MultiBalancer bs) name E r
  = (let '(bs', E', r') := chain name bs E r in (MultiBalancer bs', E', r')).
Proof.
  simpl.
  match goal with
  | |- context [?f bs E r] =>
      lazymatch f with
      | chain _ => fail
      | _ => assert (Hf : forall bs E r, f bs E r = chain name bs E r)
      end
  end.
  { clear. induction bs as [|b bs IH]; intros E r; [reflexivity|].
    simpl. destruct (Balance b name E r) as [[b' E'] r'].
    by rewrite IH. }
  by rewrite Hf.
Qed.

Lemma insert_head_perm (l : list Endpoint) : forall (j : nat) (a y : Endpoint),
  l !! j = Some y -> y :: <[j := a]> l ≡ₚ a :: l.
Proof.
  induction l as [|b l IH]; intros [|j] a y Hj; simplify_eq/=.
  - apply perm_swap.
  - rewrite perm_swap. rewrite (IH j a y Hj). apply perm_swap.
Qed.

Lemma swap_perm (l : list Endpoint) : forall i j : nat, swap i j l ≡ₚ l.
Proof.
  unfold swap. induction l as [|a l IH]; intros i j; [by destruct i|].
  destruct i as [|i], j as [|j]; simpl.
  - reflexivity.
  - destruct (l !! j) as [y|] eqn:Hj; [|reflexivity].
    by apply insert_head_perm.
  - destruct (l !! i) as [x|] eqn:Hi; [|reflexivity].
    by apply insert_head_perm.
  - specialize (IH i j).
    destruct (l !! i) as [x|]; [|reflexivity].
    destruct (l !! j) as [y|]; [|reflexivity].
    simpl. by rewrite IH.
Qed.

Lemma shuffle_down_perm (i : nat) : forall (l : list Endpoint) (r : Rand),
  (shuffle_down i l r).1 ≡ₚ l.
Proof.
  induction i as [|i IH]; intros l r; [reflexivity|].
  simpl. rewrite IH. apply swap_perm.
Qed.

Lemma insert_by_weight_perm (e : Endpoint) (l : list Endpoint) :
  insert_by_weight e l ≡ₚ e :: l.
Proof.
  induction l as [|x l IH]; [reflexivity|]. simpl.
  destruct (PrimFloat.ltb _ _); [reflexivity|].
  rewrite IH. apply perm_swap.
Qed.

Lemma sort_by_weight_perm (l : list Endpoint) : sort_by_weight l ≡ₚ l.
Proof.
  induction l as [|e l IH]; [reflexivity|]. simpl.
  rewrite insert_by_weight_perm. by rewrite IH.
Qed.

Lemma assign_weights_map {A : Type} (g : Endpoint -> A)
    (WeightOf : Endpoint -> float) (l : list Endpoint) :
  (forall w e, g (set_expWeight w e) = g e) ->
  forall r : Rand, map g (assign_weights WeightOf l r).1 = map g l.
Proof.
  intros Hg. induction l as [|e l IH]; intros r; [reflexivity|]. simpl.
  specialize (IH (advance r)).
  destruct (assign_weights WeightOf l (advance r)) as [l' r']. simpl in *.
  by rewrite IH, Hg.
Qed.

Lemma partition_perm (f : Endpoint -> bool) (l : list Endpoint) :
  List.filter f l ++ List.filter (fun e => negb (f e)) l ≡ₚ l.
Proof.
  induction l as [|e l IH]; [reflexivity|]. simpl.
  destruct (f e); simpl.
  - by rewrite IH.
  - rewrite <- Permutation_middle. by rewrite IH.
Qed.

Lemma rotated_perm (k : nat) (l : list Endpoint) : rotated k l ≡ₚ l.
Proof.
  unfold rotated. rewrite Permutation_app_comm. by rewrite take_drop.
Qed.

Lemma rotated_head (k : nat) (l : list Endpoint) :
  (k < length l)%nat -> head (rotated k l) = l !! k.
Proof.
  intros Hk. unfold rotated. rewrite head_lookup.
  rewrite lookup_app_l by (rewrite length_drop; lia).
  rewrite lookup_drop. f_equal. lia.
Qed.

Section Permutes.

Context {A : Type} (g : Endpoint -> A).
Hypothesis g_scratch : forall w e, g (set_expWeight w e) = g e.
Variable name : string.

Lemma chain_perm_map (bs : list Balancer) :
  Forall (keeps g name) bs ->
  forall (E : list Endpoint) (r : Rand),
    map g (chain name bs E r).1.2 ≡ₚ map g E.
Proof.
  induction 1 as [|b bs Hb _ IH]; intros E r; [reflexivity|]. simpl.
  specialize (Hb E r). destruct (Balance b name E r) as [[b' E'] r'].
  specialize (IH E' r'). destruct (chain name bs E' r') as [[bs'' E''] r''].
  simpl in *. by rewrite IH.
Qed.

Lemma Balance_perm_map (b : Balancer) : keeps g name b.
Proof.
  induction b as [offset|tags|bs IH| |WeightOf] using Balancer_induction;
    intros E r.
  - simpl. apply Permutation_map, rotated_perm.
  - simpl. apply Permutation_map, partition_perm.
  - rewrite Balance_MultiBalancer.
    pose proof (chain_perm_map bs IH E r) as H.
    destruct (chain name bs E r) as [[bs' E'] r']. exact H.
  - simpl. unfold Shuffle.
    pose proof (shuffle_down_perm (length E) E r) as H.
    destruct (shuffle_down (length E) E r) as [E' r']. simpl in *.
    by apply Permutation_map.
  - simpl. unfold WeightedShuffle.
    pose proof (assign_weights_map g WeightOf E g_scratch r) as H.
    destruct (assign_weights WeightOf E r) as [E' r']. simpl in *.
    rewrite <- H. apply Permutation_map, sort_by_weight_perm.
Qed.

End Permutes.

Lemma chain_perm (name : string) (bs : list Balancer) :
  Forall (fun b => scratch_free b = true ->
                   forall E r, (Balance b name E r).1.2 ≡ₚ E) bs ->
  forallb scratch_free bs = true ->
  forall (E : list Endpoint) (r : Rand), (chain name bs E r).1.2 ≡ₚ E.
Proof.
  induction 1 as [|b bs Hb _ IH]; intros Hf E r; [reflexivity|]. simpl in *.
  apply andb_prop in Hf as [Hf1 Hf2].
  specialize (Hb Hf1 E r). destruct (Balance b name E r) as [[b' E'] r'].
  specialize (IH Hf2 E' r'). destruct (chain name bs E' r') as [[bs'' E''] r''].
  simpl in *. by rewrite IH.
Qed.

Lemma Balance_perm (name : string) (b : Balancer) :
  scratch_free b = true ->
  forall (E : list Endpoint) (r : Rand), (Balance b name E r).1.2 ≡ₚ E.
Proof.
  induction b as [offset|tags|bs IH| |WeightOf] using Balancer_induction;
    intros Hf E r.
  - simpl. apply rotated_perm.
  - simpl. apply partition_perm.
  - rewrite Balance_MultiBalancer.
    pose proof (chain_perm name bs IH Hf E r) as H.
    destruct (chain name bs E r) as [[bs' E'] r']. exact H.
  - simpl. unfold Shuffle.
    pose proof (shuffle_down_perm (length E) E r) as H.
    by destruct (shuffle_down (length E) E r) as [E' r'].
  - discriminate.
Qed.

Lemma LoadBalance_instance (lb : LoadBalancer) (name : string)
    (E : list Endpoint) (r : Rand) :
  (LoadBalance lb name E r).1.2
  = (Balance (instance_for lb name) name E r).1.2 /\
  instances (LoadBalance lb name E r).1.1 !! name
  = Some (Balance (instance_for lb name) name E r).1.1.
Proof.
  unfold LoadBalance.
  destruct (Balance _ name E r) as [[b' E'] r']. simpl.
  split; [reflexivity|]. apply lookup_insert_eq.
Qed.

(** C7.  Every strategy returns its input reordered.  For each of the
    five strategies, and for the load balancer dispatching to one of
    them by service name, the endpoints returned are, content for
    content (every attribute but the scratch weight), a permutation of
    the endpoints given, and so are their identifiers.  A strategy that
    contains no weighted shuffle never writes the scratch weight, and
    its result is a permutation of the input as it stands. *)
Theorem Balance_permutes (b : Balancer) (lb : LoadBalancer) (name : string)
    (E : list Endpoint) (r : Rand) :
  map contents (Balance b name E r).1.2 ≡ₚ map contents E /\
  map ID (Balance b name E r).1.2 ≡ₚ map ID E /\
  (scratch_free b = true -> (Balance b name E r).1.2 ≡ₚ E) /\
  map contents (LoadBalance lb name E r).1.2 ≡ₚ map contents E /\
  map ID (LoadBalance lb name E r).1.2 ≡ₚ map ID E /\
  (scratch_free (instance_for lb name) = true ->
   (LoadBalance lb name E r).1.2 ≡ₚ E).
Proof.
  destruct (LoadBalance_instance lb name E r) as [-> _].
  split; [by apply Balance_perm_map|].
  split; [by apply Balance_perm_map|].
  split; [intros Hf; by apply Balance_perm|].
  split; [by apply Balance_perm_map|].
  split; [by apply Balance_perm_map|].
  intros Hf. by apply Balance_perm.
Qed.

Lemma consecutive_RoundRobin (name : string) (E : list Endpoint) (r : Rand)
    (n : nat) : forall c : nat,
  consecutive n (RoundRobin c) name E r
  = map (fun k => rotated (k mod length E)%nat E) (seq (S c) n).
Proof.
  induction n as [|n IH]; intros c; [reflexivity|].
  simpl. by rewrite IH.
Qed.

Lemma residues_perm (m : nat) : forall a : nat,
  map (fun k => k mod S m)%nat (seq a (S m)) ≡ₚ seq 0 (S m).
Proof.
  induction a as [|a IH].
  - rewrite (map_ext_in _ (fun k => k)); [by rewrite List.map_id|].
    intros k Hk. apply in_seq in Hk. apply Nat.mod_small. lia.
  - rewrite <- IH. rewrite (seq_S m (S a)), <- (cons_seq m a).
    rewrite map_app. cbn [map].
    replace ((S a + m) mod S m)%nat with (a mod S m)%nat.
    + symmetry. apply Permutation_cons_append.
    + replace (S a + m)%nat with (a + 1 * S m)%nat by lia.
      by rewrite Nat.Div0.mod_add.
Qed.

(** C8.  On a nonempty list of length N, one call of a rotation
    advances its counter from [c] to [c + 1] and returns the list turned
    so that the element at index [(c + 1) mod N] comes first.  N calls
    in a row on the same list return, in some order, the rotations by
    0, 1, ..., N - 1: each of the N rotations once. *)
Theorem RoundRobin_rotations (c : nat) (name : string) (E : list Endpoint)
    (r : Rand) :
  E <> [] ->
  let N := length E in
  Balance (RoundRobin c) name E r
  = (RoundRobin (S c), rotated (S c mod N) E, r) /\
  head (rotated (S c mod N) E) = E !! (S c mod N)%nat /\
  consecutive N (RoundRobin c) name E r
  ≡ₚ map (fun k => rotated k E) (seq 0 N).
Proof.
  intros HE N.
  assert (HN : (0 < N)%nat) by (subst N; destruct E; simpl; [done|lia]).
  split; [reflexivity|].
  split; [apply rotated_head, Nat.mod_upper_bound; lia|].
  rewrite consecutive_RoundRobin. fold N.
  rewrite <- (map_map (fun k => k mod N)%nat (fun k => rotated k E)).
  apply Permutation_map.
  destruct N as [|m]; [lia|]. apply residues_perm.
Qed.

Lemma Balance_permutes_witness :
  (Balance zoned "test-service" fleet dice).1.2 ≡ₚ fleet /\
  (LoadBalance per_service "test-service" fleet dice).1.2 ≡ₚ fleet.
Proof.
  destruct (Balance_permutes zoned per_service "test-service" fleet dice)
    as (_ & _ & Hb & _ & _ & Hl).
  split; [apply Hb; reflexivity|apply Hl; reflexivity].
Defined.

Lemma RoundRobin_rotations_witness :
  Balance (RoundRobin 0) "test-service" fleet dice
  = (RoundRobin 1, rotated (1 mod length fleet) fleet, dice) /\
  head (rotated (1 mod length fleet) fleet)
  = fleet !! (1 mod length fleet)%nat /\
  consecutive (length fleet) (RoundRobin 0) "test-service" fleet dice
  ≡ₚ map (fun k => rotated k fleet) (seq 0 (length fleet)).
Proof.
  apply (RoundRobin_rotations 0 "test-service" fleet dice). discriminate.
Defined.

Example RoundRobin_three_calls :
  map (map ID) (consecutive 3 (RoundRobin 0) "test-service" fleet dice)
  = [["b"; "c"; "a"]; ["c"; "a"; "b"]; ["a"; "b"; "c"]].
Proof. by vm_compute. Qed.

Example zoned_first_call :
  map ID (Balance zoned "test-service" fleet dice).1.2 = ["c"; "b"; "a"].
Proof. by vm_compute. Qed.

Example Shuffler_call :
  map ID (Balance Shuffler "test-service" fleet dice).1.2 = ["b"; "c"; "a"].
Proof. by vm_compute. Qed.

(** The weighted shuffle leaves its products in the scratch field. *)
Example WeightedShuffler_scratch :
  map expWeight
    (Balance (WeightedShuffler (fun e => if RTT e =? 0 then 3%float
                                         else 2%float))
             "test-service" fleet dice).1.2
  = [2%float; 2%float; 3%float].
Proof. by vm_compute. Qed.

(** ** The client *)

Module ApiFacts.

Import Api.

Lemma str_cons_app (x : ascii) (a b : string) :
  String x a +:+ b = String x (a +:+ b).
Proof. reflexivity. Qed.

Lemma str_nil_app (b : string) : "" +:+ b = b.
Proof. reflexivity. Qed.

Ltac str_simpl := simpl; rewrite ?str_cons_app, ?str_nil_app; simpl.

Lemma str_app_assoc (a b c : string) : (a +:+ b) +:+ c = a +:+ (b +:+ c).
Proof. induction a as [|x a IH]; str_simpl; [done|]. by rewrite IH. Qed.

Lemma str_app_nil_r (a : string) : a +:+ "" = a.
Proof. induction a as [|x a IH]; str_simpl; [done|]. by rewrite IH. Qed.

Lemma str_length_app (a b : string) :
  String.length (a +:+ b) = (String.length a + String.length b)%nat.
Proof. induction a as [|x a IH]; str_simpl; [done|]. by rewrite IH. Qed.

Lemma all_bytes_app (ok : ascii -> bool) (a b : string) :
  all_bytes ok (a +:+ b) = all_bytes ok a && all_bytes ok b.
Proof.
  induction a as [|x a IH]; str_simpl; [done|]. rewrite IH. apply andb_assoc.
Qed.

Lemma all_bytes_impl (ok ok' : ascii -> bool) (s : string) :
  (forall c, ok c = true -> ok' c = true) ->
  all_bytes ok s = true -> all_bytes ok' s = true.
Proof.
  intros Himp. induction s as [|x s IH]; simpl; [done|].
  intros [Hx Hs]%andb_prop. rewrite (Himp x Hx). by apply IH.
Qed.

Lemma escape_byte_bytes (c : ascii) :
  all_bytes escaped_byte (escape_byte c) = true.
Proof. destruct c as [[] [] [] [] [] [] [] []]; by vm_compute. Qed.

Lemma QueryEscape_bytes (s : string) :
  all_bytes escaped_byte (QueryEscape s) = true.
Proof.
  induction s as [|c s IH]; simpl; [done|].
  by rewrite all_bytes_app, escape_byte_bytes, IH.
Qed.

Lemma escaped_not_amp (c : ascii) :
  escaped_byte c = true -> negb (Ascii.eqb c "&") = true.
Proof. destruct c as [[] [] [] [] [] [] [] []]; by vm_compute. Qed.

Lemma escaped_not_equals (c : ascii) :
  escaped_byte c = true -> negb (Ascii.eqb c "=") = true.
Proof. destruct c as [[] [] [] [] [] [] [] []]; by vm_compute. Qed.

Lemma escaped_query_byte (c : ascii) :
  escaped_byte c = true -> query_byte c = true.
Proof.
  unfold query_byte, escaped_byte. intros H.
  by rewrite <- !orb_assoc, !orb_assoc, H.
Qed.

Lemma encode_param_no_amp (p : Param) :
  all_bytes (fun c => negb (Ascii.eqb c "&")) (encode_param p) = true.
Proof.
  unfold encode_param.
  assert (H : forall s, all_bytes (fun c => negb (Ascii.eqb c "&"))
                          (QueryEscape s) = true).
  { intros s0. eapply all_bytes_impl; [apply escaped_not_amp|].
    apply QueryEscape_bytes. }
  destruct (String.length (Value p) =? 0)%nat; [apply H|].
  by rewrite !all_bytes_app, !H.
Qed.

Lemma split_on_none (sep : ascii) (a : string) :
  all_bytes (fun c => negb (Ascii.eqb c sep)) a = true ->
  split_on sep a = [a].
Proof.
  induction a as [|x a IH]; simpl; [done|].
  intros [Hx Ha]%andb_prop. apply negb_true_iff in Hx. rewrite Hx.
  by rewrite IH.
Qed.

Lemma split_on_app (sep : ascii) (a b : string) :
  all_bytes (fun c => negb (Ascii.eqb c sep)) a = true ->
  split_on sep (a +:+ String sep b) = a :: split_on sep b.
Proof.
  induction a as [|x a IH]; str_simpl.
  - intros _. by rewrite Ascii.eqb_refl.
  - intros [Hx Ha]%andb_prop. apply negb_true_iff in Hx. rewrite Hx.
    by rewrite IH.
Qed.

(** [Query.String] in closed form. *)
Lemma String_loop_join (q : Query) : forall (i : nat) (b : string),
  String_loop i q b
  = match q with
    | [] => b
    | _ => (b +:+ (if (i =? 0)%nat then "" else "&"))
           +:+ join "&" (List.map encode_param q)
    end.
Proof.
  induction q as [|p q IH]; intros i b; [reflexivity|].
  cbn [String_loop]. rewrite IH. unfold encode_param.
  destruct q as [|p' q].
  - cbn [List.map join].
    destruct (i =? 0)%nat, (String.length (Value p) =? 0)%nat;
      by rewrite ?str_app_assoc, ?str_app_nil_r.
  - cbn [List.map join Nat.eqb]. fold (encode_param p').
    destruct (i =? 0)%nat, (String.length (Value p) =? 0)%nat;
      by rewrite ?str_app_assoc, ?str_app_nil_r.
Qed.

Lemma Query_String_join (q : Query) :
  Query_String q = join "&" (List.map encode_param q).
Proof.
  unfold Query_String. rewrite String_loop_join. by destruct q.
Qed.

Lemma split_join (l : list Param) :
  l <> [] ->
  split_on "&" (join "&" (List.map encode_param l))
  = List.map encode_param l.
Proof.
  induction l as [|p l IH]; [done|]. intros _.
  destruct l as [|p' l].
  - simpl. apply split_on_none, encode_param_no_amp.
  - change (join "&" (List.map encode_param (p :: p' :: l)))
      with ((encode_param p +:+ "&")
            +:+ join "&" (List.map encode_param (p' :: l))).
    rewrite str_app_assoc.
    change ("&" +:+ ?x) with (String "&"%char x).
    rewrite split_on_app by apply encode_param_no_amp.
    rewrite IH by done. reflexivity.
Qed.

Lemma Index_byte (a b : string) (sep : ascii) :
  all_bytes (fun c => negb (Ascii.eqb c sep)) a = true ->
  Index (a +:+ String sep b) (String sep EmptyString)
  = Some (String.length a).
Proof.
  induction a as [|x a IH]; str_simpl.
  - intros _. by rewrite Ascii.eqb_refl.
  - intros [Hx Ha]%andb_prop. apply negb_true_iff in Hx.
    rewrite Ascii.eqb_sym, Hx. by rewrite IH.
Qed.

Lemma Index_byte_none (a : string) (sep : ascii) :
  all_bytes (fun c => negb (Ascii.eqb c sep)) a = true ->
  Index a (String sep EmptyString) = None.
Proof.
  induction a as [|x a IH]; simpl; [done|].
  intros [Hx Ha]%andb_prop. apply negb_true_iff in Hx.
  rewrite Ascii.eqb_sym, Hx. by rewrite IH.
Qed.

(** X9.  The separators of [Query.String] can be told from the data:
    splitting the text of a nonempty query at [&] gives back one piece
    per parameter, in order; in each piece the escaped name is what
    comes before the first [=], and a parameter with an empty value has
    no [=] at all. *)
Theorem Query_String_split (q : Query) :
  q <> [] ->
  split_on "&" (Query_String q) = List.map encode_param q /\
  forall p : Param,
    Index (encode_param p) "="
    = (if (String.length (Value p) =? 0)%nat then None
       else Some (String.length (QueryEscape (Name p)))).
Proof.
  intros Hq. split; [rewrite Query_String_join; by apply split_join|].
  intros p. unfold encode_param.
  assert (H : all_bytes (fun c => negb (Ascii.eqb c "="))
                (QueryEscape (Name p)) = true).
  { eapply all_bytes_impl; [apply escaped_not_equals|].
    apply QueryEscape_bytes. }
  destruct (String.length (Value p) =? 0)%nat.
  - by apply Index_byte_none.
  - rewrite str_app_assoc.
    change ("=" +:+ ?x) with (String "="%char x). by apply Index_byte.
Qed.

Lemma join_app (l1 l2 : list string) :
  l1 <> [] -> l2 <> [] ->
  join "&" (l1 ++ l2) = (join "&" l1 +:+ "&") +:+ join "&" l2.
Proof.
  induction l1 as [|x l1 IH]; [done|]. intros _ Hl2.
  destruct l1 as [|y l1].
  - destruct l2; [done|reflexivity].
  - change ((x :: y :: l1) ++ l2) with (x :: (y :: l1) ++ l2).
    change (join "&" (x :: (y :: l1) ++ l2))
      with ((x +:+ "&") +:+ join "&" ((y :: l1) ++ l2)).
    rewrite IH by done.
    change (join "&" (x :: y :: l1))
      with ((x +:+ "&") +:+ join "&" (y :: l1)).
    by rewrite !str_app_assoc.
Qed.

(** X10.  [Query.String] of two queries put end to end is the two
    texts joined by one [&]; an empty query gives the empty text and
    adds nothing, separator included. *)
Theorem Query_String_app (q1 q2 : Query) :
  Query_String [] = "" /\
  Query_String (q1 ++ []) = Query_String q1 /\
  (q1 <> [] -> q2 <> [] ->
   Query_String (q1 ++ q2)
   = (Query_String q1 +:+ "&") +:+ Query_String q2).
Proof.
  split; [reflexivity|]. split; [by rewrite app_nil_r|].
  intros H1 H2. rewrite !Query_String_join, List.map_app.
  apply join_app; by destruct q1, q2.
Qed.

Lemma join_bytes (l : list string) :
  Forall (fun x => all_bytes query_byte x = true) l ->
  all_bytes query_byte (join "&" l) = true.
Proof.
  induction 1 as [|x l Hx _ IH]; [done|].
  destruct l as [|y l]; [exact Hx|].
  change (join "&" (x :: y :: l)) with ((x +:+ "&") +:+ join "&" (y :: l)).
  by rewrite !all_bytes_app, Hx, IH.
Qed.

(** X11.  Whatever the names and values are, the text of a query is
    made of letters, digits, [-_.~], [+], [%], [&] and [=] only. *)
Theorem Query_String_bytes (q : Query) :
  all_bytes query_byte (Query_String q) = true.
Proof.
  rewrite Query_String_join. apply join_bytes.
  apply Forall_forall. intros x Hx%list_elem_of_In.
  apply in_map_iff in Hx as (p & <- & _). unfold encode_param.
  assert (H : forall s, all_bytes query_byte (QueryEscape s) = true).
  { intros s0. eapply all_bytes_impl; [apply escaped_query_byte|].
    apply QueryEscape_bytes. }
  destruct (String.length (Value p) =? 0)%nat; [apply H|].
  by rewrite !all_bytes_app, !H.
Qed.

Lemma Query_String_split_witness :
  split_on "&" (Query_String sample_query)
  = List.map encode_param sample_query.
Proof.
  apply (Query_String_split sample_query). discriminate.
Defined.

Example Query_String_sample :
  Query_String sample_query = "tag=a+b&passing&tag=c%26d".
Proof. by vm_compute. Qed.

Lemma Query_String_app_witness :
  Query_String ([mkParam "tag" "a b"] ++ [mkParam "dc" "dc1"])
  = (Query_String [mkParam "tag" "a b"] +:+ "&")
    +:+ Query_String [mkParam "dc" "dc1"].
Proof.
  destruct (Query_String_app [mkParam "tag" "a b"] [mkParam "dc" "dc1"])
    as (_ & _ & H).
  apply H; discriminate.
Defined.

(** *** [Query.Values] *)

Lemma Query_Values_snoc (q : Query) (p : Param) :
  Query_Values (q ++ [p]) = <[Name p := [Value p]]> (Query_Values q).
Proof. unfold Query_Values. by rewrite foldl_app. Qed.

Lemma Query_Values_other (q : Query) (k : string) :
  (forall p, In p q -> Name p <> k) -> Query_Values q !! k = None.
Proof.
  induction q as [|p q IH] using rev_ind; intros Hk; [done|].
  rewrite Query_Values_snoc, lookup_insert_ne.
  - apply IH. intros p' Hp'. apply Hk, in_or_app. by left.
  - apply Hk, in_or_app. right. by left.
Qed.

(** X12.  [Query.Values] keeps, for each name, the value of the last
    parameter with that name: parameters before it with the same name
    are overwritten, and a name no parameter has is not a key. *)
Theorem Query_Values_last (q1 q2 : Query) (p : Param) (k : string) :
  (forall p', In p' q2 -> Name p' <> Name p) ->
  Query_Values (q1 ++ p :: q2) !! Name p = Some [Value p] /\
  ((forall p', In p' (q1 ++ p :: q2) -> Name p' <> k) ->
   Query_Values (q1 ++ p :: q2) !! k = None).
Proof.
  intros Hlast. split; [|apply Query_Values_other].
  induction q2 as [|p2 q2 IH] using rev_ind.
  - rewrite Query_Values_snoc. apply lookup_insert_eq.
  - replace (q1 ++ p :: q2 ++ [p2]) with ((q1 ++ p :: q2) ++ [p2])
      by (by rewrite <- app_assoc).
    rewrite Query_Values_snoc, lookup_insert_ne.
    + apply IH. intros p' Hp'. apply Hlast, in_or_app. by left.
    + apply Hlast, in_or_app. right. by left.
Qed.

(** X13.  Every entry of [Query.Values] holds exactly one value, and
    that value is the one some parameter of the query gave to the key:
    no name ever keeps two values, as many parameters as may carry it. *)
Theorem Query_Values_single (q : Query) (k : string) (vs : list string) :
  Query_Values q !! k = Some vs ->
  exists v : string, vs = [v] /\ In (mkParam k v) q.
Proof.
  revert vs. induction q as [|p q IH] using rev_ind; intros vs; [done|].
  rewrite Query_Values_snoc.
  destruct (decide (Name p = k)) as [<-|Hne].
  - rewrite lookup_insert_eq. intros [= <-]. exists (Value p).
    split; [done|]. apply in_or_app. right. left. by destruct p.
  - rewrite lookup_insert_ne by done. intros Hl.
    destruct (IH vs Hl) as (v & -> & Hin). exists v. split; [done|].
    apply in_or_app. by left.
Qed.

Lemma Query_Values_last_witness :
  Query_Values sample_query !! "tag" = Some ["c&d"] /\
  Query_Values sample_query !! "dc" = None.
Proof.
  destruct (Query_Values_last [mkParam "tag" "a b"; mkParam "passing" ""] []
              (mkParam "tag" "c&d") "dc") as [H1 H2].
  - intros p' [].
  - split; [exact H1|]. apply H2.
    intros p' [<-|[<-|[<-|[]]]]; discriminate.
Defined.

Lemma Query_Values_single_witness :
  exists v : string, ["c&d"] = [v] /\ In (mkParam "tag" v) sample_query.
Proof.
  apply (Query_Values_single sample_query "tag" ["c&d"]). by vm_compute.
Defined.

(** *** [Do] *)

Lemma length_zero (x : string) :
  (String.length x =? 0)%nat = true <-> x = "".
Proof.
  destruct x; simpl; split; try done.
Qed.

Lemma has_prefix_drop (p : string) : forall s : string,
  has_prefix p s = true -> s = p +:+ str_drop (String.length p) s.
Proof.
  induction p as [|a p IH]; intros s; [done|].
  destruct s as [|b s]; simpl; [done|].
  destruct (Ascii.eqb_spec a b) as [->|]; [|done].
  intros H. rewrite str_cons_app. f_equal. by apply IH.
Qed.

Lemma has_prefix_take (p : string) : forall (n : nat) (s : string),
  has_prefix p (str_take n s) = true -> has_prefix p s = true.
Proof.
  induction p as [|a p IH]; intros n s; [done|].
  destruct n as [|n], s as [|b s]; simpl; try done.
  destruct (Ascii.eqb a b); [apply IH|done].
Qed.

Lemma Index_split (sep s : string) : forall i : nat,
  Index s sep = Some i ->
  s = (str_take i s +:+ sep) +:+ str_drop (i + String.length sep) s.
Proof.
  induction s as [|a s IH]; intros i; simpl.
  - destruct (has_prefix sep "") eqn:Hp; [|done]. intros [= <-].
    by apply has_prefix_drop.
  - destruct (has_prefix sep (String a s)) eqn:Hp.
    + intros [= <-]. by apply has_prefix_drop.
    + destruct (Index s sep) as [i'|] eqn:Hi; [|done]. simpl.
      intros [= <-]. simpl. rewrite !str_cons_app. f_equal. by apply IH.
Qed.

Lemma Index_first (sep s : string) : forall i : nat,
  sep <> "" -> Index s sep = Some i ->
  Index (str_take i s) sep = None /\ String.length (str_take i s) = i.
Proof.
  induction s as [|a s IH]; intros i Hsep; simpl.
  - destruct sep; [done|]. done.
  - destruct (has_prefix sep (String a s)) eqn:Hp.
    + intros [= <-]. simpl. by destruct sep.
    + destruct (Index s sep) as [i'|] eqn:Hi; [|done]. simpl.
      intros [= <-]. destruct (IH i' Hsep eq_refl) as [Hn Hl].
      simpl. rewrite Hl. split; [|done].
      destruct (has_prefix sep (String a (str_take i' s))) eqn:Hp'.
      * apply (has_prefix_take sep (S i') (String a s)) in Hp'. congruence.
      * by rewrite Hn.
Qed.

(** Where [Do] looks for the agent. *)
Lemma locate_spec (address : string) :
  (address = "" -> locate address = ("http", DefaultAddress)) /\
  (address <> "" ->
   match Index address "://" with
   | Some i =>
       ((locate address).1 +:+ "://") +:+ (locate address).2 = address /\
       Index (locate address).1 "://" = None /\
       String.length (locate address).1 = i
   | None => locate address = ("http", address)
   end).
Proof.
  unfold locate. split.
  - by intros ->.
  - intros Hne. destruct (String.length address =? 0)%nat eqn:Hl;
      [by apply length_zero in Hl|].
    destruct (Index address "://") as [i|] eqn:Hi; [|done]. simpl.
    split; [symmetry; by apply (Index_split "://")|].
    by apply Index_first.
Qed.

Section DoFacts.

Variables (C V R : Type).
Variable Marshal : V -> string + error.
Variable Decode : string -> R + error.
Variable URL_String : URL -> string.
Variable DefaultUserAgent : string.
Variable DefaultTransport : RoundTripper C.

Abbreviation Do := (Api.Do C V R Marshal Decode URL_String DefaultUserAgent
                      DefaultTransport).

(** The request [Do] builds once the body is known. *)
Lemma Do_sent (c : Client C) (ctx : option C) (method path : string)
    (query : Query) (send : payload V) (recv : bool) (req : Request C) :
  In req (reply_sent C R (Do c ctx method path query send recv)) ->
  exists body : string,
    body_of V Marshal send = inl body /\
    reply_sent C R (Do c ctx method path query send recv) = [req] /\
    req = mkRequest C method
            (mkURL (locate (Address C c)).1 (locate (Address C c)).2 path
               (Query_String
                  (if (String.length (Datacenter C c) =? 0)%nat then query
                   else query ++ [mkParam "dc" (Datacenter C c)])))
            (mkHeader "application/json; charset=utf-8"
                      "application/json; charset=utf-8"
                      (locate (Address C c)).2
                      (if (String.length (UserAgent C c) =? 0)%nat
                       then DefaultUserAgent else UserAgent C c))
            body (Z.of_nat (String.length body)) ctx.
Proof.
  unfold Api.Do. destruct (locate (Address C c)) as [scheme address].
  destruct (body_of V Marshal send) as [body|e]; [|done]. simpl.
  intros Hin. exists body. split; [done|].
  destruct (match Transport C c with
            | Some t => t
            | None => DefaultTransport
            end _) as [res|e] eqn:Ht; simpl in *.
  - destruct (negb (StatusCode res =? StatusOK)); simpl in *.
    + destruct Hin as [<-|[]]. done.
    + destruct recv; [destruct (Decode _)|]; simpl in *;
        destruct Hin as [<-|[]]; done.
  - destruct Hin as [<-|[]]. done.
Qed.

(** X14.  Every request [Do] hands to the round tripper names the agent
    the client's address stands for: the [Host] header is the URL host,
    an empty address means [http] on [localhost:8500], an address
    without [://] is a host reached over [http], and an address with
    [://] is cut at its first occurrence, so that scheme, [://] and
    host put together are the address again. *)
Theorem Do_addresses_agent (c : Client C) (ctx : option C)
    (method path : string) (query : Query) (send : payload V) (recv : bool)
    (req : Request C) :
  In req (reply_sent C R (Do c ctx method path query send recv)) ->
  let scheme := Scheme (Url C req) in
  let host := Host (Url C req) in
  HostHeader (Headers C req) = host /\
  Method C req = method /\ Path (Url C req) = path /\
  ContentLength C req = Z.of_nat (String.length (Body C req)) /\
  (Address C c = "" -> scheme = "http" /\ host = DefaultAddress) /\
  (Address C c <> "" ->
   match Index (Address C c) "://" with
   | Some i =>
       (scheme +:+ "://") +:+ host = Address C c /\
       Index scheme "://" = None /\ String.length scheme = i
   | None => scheme = "http" /\ host = Address C c
   end).
Proof.
  intros Hin. destruct (Do_sent _ _ _ _ _ _ _ _ Hin) as (body & _ & _ & ->).
  simpl. destruct (locate_spec (Address C c)) as [Hempty Hfull].
  split; [done|]. split; [done|]. split; [done|]. split; [done|]. split.
  - intros Ha. by rewrite (Hempty Ha).
  - intros Ha. specialize (Hfull Ha).
    destruct (Index (Address C c) "://"); [done|]. by rewrite Hfull.
Qed.

(** X15.  The datacenter of the client goes last in the query of every
    request: after the caller's parameters, which are kept in order, as
    [dc=...] with its value escaped; a client without datacenter sends
    the caller's query as it is. *)
Theorem Do_datacenter (c : Client C) (ctx : option C)
    (method path : string) (query : Query) (send : payload V) (recv : bool)
    (req : Request C) :
  In req (reply_sent C R (Do c ctx method path query send recv)) ->
  (Datacenter C c = "" -> RawQuery (Url C req) = Query_String query) /\
  (Datacenter C c <> "" ->
   RawQuery (Url C req)
   = match query with
     | [] => "dc=" +:+ QueryEscape (Datacenter C c)
     | _ => (Query_String query +:+ "&dc=")
            +:+ QueryEscape (Datacenter C c)
     end).
Proof.
  intros Hin. destruct (Do_sent _ _ _ _ _ _ _ _ Hin) as (body & _ & _ & ->).
  simpl. split.
  - intros ->. reflexivity.
  - intros Hdc.
    destruct (String.length (Datacenter C c) =? 0)%nat eqn:Hl;
      [by apply length_zero in Hl|].
    assert (Hone : Query_String [mkParam "dc" (Datacenter C c)]
                   = "dc=" +:+ QueryEscape (Datacenter C c)).
    { unfold Query_String. simpl. by rewrite Hl. }
    destruct query as [|p query]; [exact Hone|].
    destruct (Query_String_app (p :: query) [mkParam "dc" (Datacenter C c)])
      as (_ & _ & Happ).
    rewrite Happ, Hone by done. by rewrite !str_app_assoc.
Qed.

(** X16.  [Do] makes at most one round trip, and none at all when the
    value to send cannot be marshalled: the marshalling error is
    returned and the round tripper is never called. *)
Theorem Do_one_round_trip (c : Client C) (ctx : option C)
    (method path : string) (query : Query) (send : payload V) (recv : bool) :
  let r := Do c ctx method path query send recv in
  (length (reply_sent C R r) <= 1)%nat /\
  (forall e, body_of V Marshal send = inr e ->
             r = mkReply C R (Some e) None []) /\
  (reply_sent C R r = [] -> exists e, body_of V Marshal send = inr e).
Proof.
  unfold Api.Do. destruct (locate (Address C c)) as [scheme address].
  destruct (body_of V Marshal send) as [body|e]; simpl.
  - match goal with
    | |- context [match ?t ?q with _ => _ end] => destruct (t q) as [res|e]
    end; simpl.
    + destruct (negb (StatusCode res =? StatusOK)); simpl;
        [by repeat split|].
      destruct recv; [destruct (Decode _)|]; simpl; by repeat split.
    + by repeat split.
  - split; [lia|]. split; [by intros ? [= <-]|]. intros _. by exists e.
Qed.

(** X17.  [Do] returns nil only when one request went out and was
    answered with status 200, and, when the caller asked for the
    answer, the body was decoded into it; any other status, also
    another 2xx, is an error and nothing is decoded. *)
Theorem Do_success (c : Client C) (ctx : option C) (method path : string)
    (query : Query) (send : payload V) (recv : bool) :
  let r := Do c ctx method path query send recv in
  let transport :=
    match Transport C c with
    | Some t => t
    | None => DefaultTransport
    end in
  (reply_err C R r = None ->
   exists (req : Request C) (res : Response),
     reply_sent C R r = [req] /\ transport req = inl res /\
     StatusCode res = StatusOK /\
     (if recv
      then exists v, Decode (ResponseBody res) = inl v /\
                     reply_recv C R r = Some v
      else reply_recv C R r = None)) /\
  (forall (req : Request C) (res : Response),
     reply_sent C R r = [req] -> transport req = inl res ->
     StatusCode res <> StatusOK ->
     reply_recv C R r = None /\
     reply_err C R r
     = Some (errorString
               ((((method +:+ " ") +:+ URL_String (Url C req)) +:+ ": ")
                +:+ Status res))).
Proof.
  unfold Api.Do. destruct (locate (Address C c)) as [scheme address].
  destruct (body_of V Marshal send) as [body|e]; [|by split].
  cbv zeta.
  set (tr := match Transport C c with
             | Some t => t
             | None => DefaultTransport
             end).
  set (req0 := mkRequest C method _ _ body _ ctx).
  destruct (tr req0) as [res|e] eqn:Ht; simpl.
  - destruct (StatusCode res =? StatusOK) eqn:Hs; simpl.
    + apply Z.eqb_eq in Hs. split.
      * destruct recv; [destruct (Decode _) as [v|e] eqn:Hd|]; simpl;
          try done; intros _; exists req0, res.
        -- split; [done|]. split; [done|]. split; [done|]. by exists v.
        -- by repeat split.
      * intros req res' Hreq Ht' Hne.
        assert (req = req0) as ->
          by (destruct recv; [destruct (Decode _)|]; simpl in Hreq;
              congruence).
        rewrite Ht in Ht'. by injection Ht' as <-.
    + split; [done|]. intros req res' [= <-] Ht' _.
      rewrite Ht in Ht'. by injection Ht' as <-.
  - split; [done|]. intros req res' [= <-] Ht'. congruence.
Qed.

End DoFacts.

Lemma Do_addresses_agent_witness :
  exists req : Request unit,
    reply_sent unit string sample_get = [req] /\
    (Scheme (Url unit req) +:+ "://") +:+ Host (Url unit req)
    = "https://consul.internal:8501" /\
    Index (Scheme (Url unit req)) "://" = None /\
    HostHeader (Headers unit req) = Host (Url unit req).
Proof.
  eexists. split; [vm_compute; reflexivity|].
  match goal with
  | |- context [Url unit ?req] =>
      destruct (Do_addresses_agent unit bool string sample_marshal
                  sample_decode sample_url_string "consul-go"
                  sample_transport sample_client None "GET"
                  "/v1/health/service/web" sample_query (SendNil bool) true
                  req (or_introl eq_refl))
        as (Hh & _ & _ & _ & _ & Hfull)
  end.
  destruct (Hfull ltac:(discriminate)) as (H1 & H2 & _).
  split; [exact H1|]. split; [exact H2|exact Hh].
Defined.

Lemma Do_datacenter_witness :
  exists req : Request unit,
    reply_sent unit string sample_get = [req] /\
    RawQuery (Url unit req)
    = (Query_String sample_query +:+ "&dc=") +:+ QueryEscape "dc1".
Proof.
  eexists. split; [vm_compute; reflexivity|].
  match goal with
  | |- context [Url unit ?req] =>
      destruct (Do_datacenter unit bool string sample_marshal
                  sample_decode sample_url_string "consul-go"
                  sample_transport sample_client None "GET"
                  "/v1/health/service/web" sample_query (SendNil bool) true
                  req (or_introl eq_refl))
        as (_ & Hdc)
  end.
  apply Hdc. discriminate.
Defined.

Lemma Do_one_round_trip_witness :
  sample_put
  = mkReply unit string (Some (errorString "json: unsupported value"))
            None [] /\
  exists e, body_of bool sample_marshal (SendValue bool false) = inr e.
Proof.
  destruct (Do_one_round_trip unit bool string sample_marshal sample_decode
              sample_url_string "consul-go" sample_transport sample_client
              None "PUT" "/v1/kv/lock" [] (SendValue bool false) true)
    as (_ & H1 & H2).
  split; [apply H1; reflexivity|apply H2; reflexivity].
Defined.

Lemma Do_success_witness :
  (exists (req : Request unit) (res : Response),
     reply_sent unit string sample_get = [req] /\
     sample_transport req = inl res /\ StatusCode res = StatusOK /\
     exists v, sample_decode (ResponseBody res) = inl v /\
               reply_recv unit string sample_get = Some v) /\
  (exists req : Request unit,
     reply_sent unit string sample_delete = [req] /\
     reply_recv unit string sample_delete = None /\
     reply_err unit string sample_delete
     = Some (errorString
               (((("DELETE" +:+ " ") +:+ sample_url_string (Url unit req))
                 +:+ ": ") +:+ "404 Not Found"))).
Proof.
  split.
  - destruct (Do_success unit bool string sample_marshal sample_decode
                sample_url_string "consul-go" sample_transport sample_client
                None "GET" "/v1/health/service/web" sample_query
                (SendNil bool) true) as [H _].
    exact (H eq_refl).
  - eexists. split; [vm_compute; reflexivity|].
    match goal with
    | |- context [Url unit ?req] =>
        destruct (Do_success unit bool string sample_marshal sample_decode
                    sample_url_string "consul-go" sample_transport
                    sample_client None "DELETE" "/v1/kv/lock" []
                    (SendNil bool) false) as [_ H];
        exact (H req (mkResponse 404 "404 Not Found" "") eq_refl eq_refl
                 ltac:(discriminate))
    end.
Defined.

End ApiFacts.
